(** * ellipsis-com: serial command/response connections and their manager

    A shallow embedding of [src/ComPort.ts], [src/ComMacro.ts] (which also
    holds [ComManager]) and [src/ComType.ts], with the transport modelled on
    [__mocks__/serialport.ts].  The sources come with a compiled build of
    [ComPort] whose [send] differs; its loop is embedded next to the one of
    [src/ComPort.ts].

    Conventions.
    - JavaScript strings are [string]; only ASCII text is modelled.
    - JavaScript numbers are integers ([Z]); [`${n}`] is the decimal rendering.
    - An [async] method is a function from the system state to an [Outcome]
      (resolved, rejected, or a promise that is never settled) and the state
      in which the method stops.
    - Everything the outside world decides (what the transport answers, which
      data and errors arrive while a timer is pending) is read from a [World]
      script that is part of the state. *)

From Stdlib Require Import ZArith List Bool Lia Ascii String DecimalString.
Import ListNotations.
Local Open Scope string_scope.
Local Open Scope Z_scope.

(* ================================================================== *)
(** ** JavaScript strings *)

Definition tab : ascii := "009"%char.
Definition LF : ascii := "010"%char.
Definition VT : ascii := "011"%char.
Definition FF : ascii := "012"%char.
Definition CR : ascii := "013"%char.

(** White space as [String.prototype.trim] sees it, within ASCII. *)
Definition isWhiteSpace (c : ascii) : bool :=
  (c =? " ")%char || (c =? tab)%char || (c =? LF)%char
  || (c =? VT)%char || (c =? FF)%char || (c =? CR)%char.

Fixpoint trimStart (s : string) : string :=
  match s with
  | String c s' => if isWhiteSpace c then trimStart s' else s
  | EmptyString => EmptyString
  end.

Fixpoint trimEnd (s : string) : string :=
  match s with
  | EmptyString => EmptyString
  | String c s' =>
      match trimEnd s' with
      | EmptyString => if isWhiteSpace c then EmptyString else String c EmptyString
      | t => String c t
      end
  end.

(** [s.trim()] *)
Definition trim (s : string) : string := trimEnd (trimStart s).

(** [s.includes(c)] for a one-character needle. *)
Fixpoint includes (c : ascii) (s : string) : bool :=
  match s with
  | EmptyString => false
  | String d s' => (d =? c)%char || includes c s'
  end.

(** [s.indexOf(c)] for a one-character needle that occurs in [s]; the length
    of [s] when it does not (the callers test [includes] first). *)
Fixpoint indexOf (c : ascii) (s : string) : nat :=
  match s with
  | EmptyString => O
  | String d s' => if (d =? c)%char then O else S (indexOf c s')
  end.

(** [s.endsWith(c)] for a one-character needle. *)
Fixpoint endsWith (c : ascii) (s : string) : bool :=
  match s with
  | EmptyString => false
  | String d EmptyString => (d =? c)%char
  | String _ s' => endsWith c s'
  end.

(** [s.substring(i, j)] for [i <= j]. *)
Definition jsSubstring (i j : nat) (s : string) : string :=
  substring i (j - i) s.

(** [s.split(c)] for a one-character separator; [cur] is the piece being
    read. *)
Fixpoint splitOn (c : ascii) (cur : string) (s : string) : list string :=
  match s with
  | EmptyString => [cur]
  | String d s' =>
      if (d =? c)%char then cur :: splitOn c EmptyString s'
      else splitOn c (cur ++ String d EmptyString) s'
  end.

Definition split (c : ascii) (s : string) : list string :=
  splitOn c EmptyString s.

(** [s.split(/\r?\n/)]: a line feed, with the carriage return before it when
    there is one, separates two pieces; a lone carriage return does not. *)
Fixpoint splitLinesFrom (cur : string) (s : string) : list string :=
  match s with
  | EmptyString => [cur]
  | String c s' =>
      if (c =? LF)%char then cur :: splitLinesFrom EmptyString s'
      else if (c =? CR)%char then
        match s' with
        | String c' s'' =>
            if (c' =? LF)%char then cur :: splitLinesFrom EmptyString s''
            else splitLinesFrom (cur ++ String c EmptyString) s'
        | EmptyString => splitLinesFrom (cur ++ String c EmptyString) s'
        end
      else splitLinesFrom (cur ++ String c EmptyString) s'
  end.

Definition splitLines (s : string) : list string :=
  splitLinesFrom EmptyString s.

(** [`${n}`] for an integer [n]: its decimal digits (what JavaScript prints
    below 10^21 in absolute value). *)
Definition numToString (n : Z) : string :=
  NilZero.string_of_int (Z.to_int n).


(* ================================================================== *)
(** ** JavaScript values held by a [params] object *)

(** The values a [params] object can hold: data, as JSON gives it.  An
    object is an ordinary object, whose prototype is [Object.prototype], and
    its own fields are listed by name, each name once.  Functions are no
    values of the model: a read that reaches a property inherited from a
    prototype is told apart ([inheritedProp]) and given no result. *)
#[warnings="-register-all"]
Inductive value : Type :=
| VUndefined
| VNull
| VBool (b : bool)
| VNum (n : Z)
| VStr (s : string)
| VArr (items : list value)
| VObj (fields : list (string * value)).

(** The truth value of [v] in a condition. *)
Definition truthy (v : value) : bool :=
  match v with
  | VUndefined | VNull => false
  | VBool b => b
  | VNum n => negb (n =? 0)
  | VStr s => negb (s =? "")%string
  | VArr _ | VObj _ => true
  end.

Definition isDigit (c : ascii) : bool :=
  (("0" <=? c) && (c <=? "9"))%char.

(** The value of a digit or letter as a digit of some radix. *)
Definition digitValue (c : ascii) : option Z :=
  let n := Z.of_nat (nat_of_ascii c) in
  if (("0" <=? c) && (c <=? "9"))%char then Some (n - 48)
  else if (("a" <=? c) && (c <=? "z"))%char then Some (n - 87)
  else if (("A" <=? c) && (c <=? "Z"))%char then Some (n - 55)
  else None.

(** The number written by the longest prefix of [s] made of digits of
    [radix]; [acc] is [None] until a digit has been read. *)
Fixpoint parseDigits (radix : Z) (acc : option Z) (s : string) : option Z :=
  match s with
  | EmptyString => acc
  | String c s' =>
      match digitValue c with
      | Some d =>
          if d <? radix then
            parseDigits radix
              (Some (match acc with Some a => a * radix + d | None => d end)) s'
          else acc
      | None => acc
      end
  end.

(** [parseInt(s)]; [None] is NaN. *)
Definition parseInt (s : string) : option Z :=
  let s1 := trimStart s in
  let '(negative, s2) :=
    match s1 with
    | String "-" r => (true, r)
    | String "+" r => (false, r)
    | _ => (false, s1)
    end in
  let '(radix, s3) :=
    match s2 with
    | String "0" (String "x" r) => (16, r)
    | String "0" (String "X" r) => (16, r)
    | _ => (10, s2)
    end in
  match parseDigits radix None s3 with
  | Some n => Some (if negative then - n else n)
  | None => None
  end.

(** [Some i] when the property name [k] is the array index [i]: a decimal
    numeral without sign or leading zero. *)
Definition arrayIndex (k : string) : option nat :=
  match k with
  | EmptyString => None
  | String c _ =>
      if isDigit c then
        match parseDigits 10 None k with
        | Some n => if (numToString n =? k)%string then Some (Z.to_nat n) else None
        | None => None
        end
      else None
  end.

Fixpoint lookupField (k : string) (fields : list (string * value)) : option value :=
  match fields with
  | [] => None
  | (k', v) :: rest => if (k' =? k)%string then Some v else lookupField k rest
  end.

(** [v.hasOwnProperty(k)] for a truthy [v]. *)
Definition hasOwnProperty (v : value) (k : string) : bool :=
  match v with
  | VObj fields => match lookupField k fields with Some _ => true | None => false end
  | VArr items =>
      (k =? "length")%string
      || match arrayIndex k with
         | Some i => (i <? List.length items)%nat
         | None => false
         end
  | VStr s =>
      (k =? "length")%string
      || match arrayIndex k with
         | Some i => (i <? String.length s)%nat
         | None => false
         end
  | _ => false
  end.

(** [v[k]] for a truthy [v] and a string [k] that is an own property of [v],
    or no property of [v] at all.  A [k] that [v] only inherits from its
    prototype is outside this definition: see [inheritedProp]. *)
Definition getProp (v : value) (k : string) : value :=
  match v with
  | VObj fields => match lookupField k fields with Some x => x | None => VUndefined end
  | VArr items =>
      if (k =? "length")%string then VNum (Z.of_nat (List.length items))
      else match arrayIndex k with
           | Some i => nth i items VUndefined
           | None => VUndefined
           end
  | VStr s =>
      if (k =? "length")%string then VNum (Z.of_nat (String.length s))
      else match arrayIndex k with
           | Some i => match String.get i s with
                       | Some c => VStr (String c EmptyString)
                       | None => VUndefined
                       end
           | None => VUndefined
           end
  | _ => VUndefined
  end.

(** The names that every ordinary object inherits from [Object.prototype]. *)
Definition objectPrototypeNames : list string :=
  ["constructor"; "__defineGetter__"; "__defineSetter__"; "hasOwnProperty";
   "__lookupGetter__"; "__lookupSetter__"; "isPrototypeOf";
   "propertyIsEnumerable"; "toString"; "valueOf"; "__proto__"; "toLocaleString"].

Definition inheritedName (k : string) : bool :=
  existsb (String.eqb k) objectPrototypeNames.

(** Whether [v[k]] is read through the prototype chain: [k] is not an own
    property of [v], and [v] inherits it.  What is read then is a function
    or an object of the runtime, which is no value of the model.  The
    prototypes of arrays, strings, numbers and booleans are not listed:
    every name that is not their own counts as inherited. *)
Definition inheritedProp (v : value) (k : string) : bool :=
  negb (hasOwnProperty v k)
  && match v with
     | VObj _ => inheritedName k
     | _ => true
     end.

(** [Array.isArray(v)] *)
Definition isArray (v : value) : bool :=
  match v with VArr _ => true | _ => false end.

(** [a.length] and [a[index]] for an array [a] and a number [index]. *)
Definition arrayLength (a : value) : Z :=
  match a with VArr items => Z.of_nat (List.length items) | _ => 0 end.

Definition elementAt (a : value) (index : Z) : value :=
  match a with
  | VArr items => if index <? 0 then VUndefined else nth (Z.to_nat index) items VUndefined
  | _ => VUndefined
  end.

(** The string a value turns into when it is used as a replacement text. *)
Fixpoint toString (v : value) : string :=
  match v with
  | VUndefined => "undefined"
  | VNull => "null"
  | VBool true => "true"
  | VBool false => "false"
  | VNum n => numToString n
  | VStr s => s
  | VArr items =>
      concat ","
        (map (fun x => match x with
                       | VUndefined | VNull => EmptyString
                       | _ => toString x
                       end) items)
  | VObj _ => "[object Object]"
  end.

(* ================================================================== *)
(** ** Regular expressions built from a token, and [replaceAll]

    [send] builds [new RegExp(`{${p}}`, 'g')] from the text [p] found between
    braces, without escaping it.  The fragment of the pattern language
    modelled here: a character that stands for itself, [.], and a class
    [[...]] or [[^...]] of listed characters.  Every such pattern matches
    exactly as many characters as it has atoms.  [compileRegExp] is [None] on
    every other pattern (one the constructor rejects, or one with an operator
    outside the fragment). *)
Inductive atom : Type :=
| AChar (c : ascii)
| AAny
| AClass (negated : bool) (members : string).

Definition TokenPattern := list atom.

Fixpoint skipDigits (s : string) : string :=
  match s with
  | String c s' => if isDigit c then skipDigits s' else s
  | EmptyString => EmptyString
  end.

(** Whether the text after an opening brace completes a quantifier [{n}],
    [{n,}] or [{n,m}]. *)
Definition bracedQuantifier (s : string) : bool :=
  match s with
  | String c _ =>
      if isDigit c then
        match skipDigits s with
        | String "}" _ => true
        | String "," r =>
            match skipDigits r with
            | String "}" _ => true
            | _ => false
            end
        | _ => false
        end
      else false
  | EmptyString => false
  end.

(** Characters that are operators outside a class. *)
Definition isOperator (c : ascii) : bool :=
  (c =? "\")%char || (c =? "^")%char || (c =? "$")%char || (c =? "*")%char
  || (c =? "+")%char || (c =? "?")%char || (c =? "(")%char || (c =? ")")%char
  || (c =? "|")%char.

(** [parsePattern cls s]: the atoms of [s]; [cls] holds the polarity and the
    members read so far while inside a class. *)
Fixpoint parsePattern (cls : option (bool * string)) (s : string)
  : option TokenPattern :=
  match s with
  | EmptyString =>
      match cls with
      | None => Some []
      | Some _ => None
      end
  | String c s' =>
      match cls with
      | Some (negated, members) =>
          if (c =? "]")%char then
            option_map (cons (AClass negated members)) (parsePattern None s')
          else if ((c =? "\") || (c =? "-"))%char then None
          else parsePattern (Some (negated, members ++ String c EmptyString)) s'
      | None =>
          if (c =? "[")%char then
            match s' with
            | String "^" s'' => parsePattern (Some (true, EmptyString)) s''
            | _ => parsePattern (Some (false, EmptyString)) s'
            end
          else if (c =? ".")%char then
            option_map (cons AAny) (parsePattern None s')
          else if isOperator c then None
          else if ((c =? "{")%char && bracedQuantifier s') then None
          else option_map (cons (AChar c)) (parsePattern None s')
      end
  end.

(** [new RegExp(source, 'g')] *)
Definition compileRegExp (source : string) : option TokenPattern :=
  match source with
  | EmptyString => None
  | _ => parsePattern None source
  end.

Definition atomMatches (a : atom) (c : ascii) : bool :=
  match a with
  | AChar d => (d =? c)%char
  | AAny => negb ((c =? LF)%char || (c =? CR)%char)
  | AClass negated members => xorb negated (includes c members)
  end.

(** Whether the pattern matches at the start of [s]. *)
Fixpoint matchesAt (re : TokenPattern) (s : string) : bool :=
  match re, s with
  | [], _ => true
  | a :: re', String c s' => atomMatches a c && matchesAt re' s'
  | _ :: _, EmptyString => false
  end.

(** The replacement text for one match: [$$], [$&], [$`] and [$'] are
    expanded; the pattern has no groups, so every other [$] stands for
    itself. *)
Fixpoint expandReplacement (replacement matched before after : string) : string :=
  match replacement with
  | EmptyString => EmptyString
  | String "$" (String "$" r) => String "$" (expandReplacement r matched before after)
  | String "$" (String "&" r) => matched ++ expandReplacement r matched before after
  | String "$" (String "`" r) => before ++ expandReplacement r matched before after
  | String "$" (String "'" r) => after ++ expandReplacement r matched before after
  | String c r => String c (expandReplacement r matched before after)
  end.

(** [replaceFrom re replacement before skip s]: [s] is what is left of the
    subject, [before] what has been read, and the next [skip] characters
    belong to a match that has already been replaced. *)
Fixpoint replaceFrom (re : TokenPattern) (replacement before : string)
    (skip : nat) (s : string) : string :=
  match s with
  | EmptyString => EmptyString
  | String c s' =>
      match skip with
      | S k => replaceFrom re replacement (before ++ String c EmptyString) k s'
      | O =>
          if matchesAt re s then
            let n := List.length re in
            expandReplacement replacement (substring 0 n s) before
              (substring n (String.length s - n) s)
            ++ replaceFrom re replacement (before ++ String c EmptyString) (n - 1) s'
          else
            String c (replaceFrom re replacement (before ++ String c EmptyString) O s')
      end
  end.

(** [s.replaceAll(re, replacement)] for a compiled, hence non-empty,
    pattern. *)
Definition replaceAll (re : TokenPattern) (replacement : string) (s : string) : string :=
  replaceFrom re replacement EmptyString O s.

(* ================================================================== *)
(** ** Macros and device types *)

(** A response pattern without the [g] or [y] flag, through its [test]
    method: for such a pattern [test] is a function of the text alone.  With
    one of these flags [test] also reads and sets [lastIndex], which
    [receiveData] does not reset; such patterns are outside the model. *)
Definition RegExp := string -> bool.

Record ComMacro : Type := mkComMacro {
  command : string;
  response : RegExp
}.

(** [name] is [typeName] here; [macros] is given by its [init] entry and the
    list of its other entries. *)
Record ComType : Type := mkComType {
  typeName : string;
  baud : Z;
  init : list ComMacro;
  operations : list (string * list ComMacro);
  startupDelay : Z
}.

(** [type.macros[operationId]] for a name that is an entry of [macros] or no
    property of it at all ([None] is [undefined]); the names that [macros]
    only inherits (see [objectPrototypeNames]) are outside the model. *)
Fixpoint lookupOperation (operationId : string)
    (ops : list (string * list ComMacro)) : option (list ComMacro) :=
  match ops with
  | [] => None
  | (k, ms) :: rest =>
      if (k =? operationId)%string then Some ms else lookupOperation operationId rest
  end.

Definition macrosOf (t : ComType) (operationId : string) : option (list ComMacro) :=
  if (operationId =? "init")%string then Some (init t)
  else lookupOperation operationId (operations t).

(* ================================================================== *)
(** ** Parameter substitution in [send] *)

(** The loop over [paramRegex.exec(command)] with [/{([^}]+)}/gm]: the texts
    between an opening brace and the next closing brace, from left to right.
    [group] is [None] outside a match attempt, and holds the characters read
    since the opening brace inside one. *)
Fixpoint commandParamsFrom (group : option string) (s : string) : list string :=
  match s with
  | EmptyString => []
  | String c s' =>
      match group with
      | None =>
          if (c =? "{")%char then commandParamsFrom (Some EmptyString) s'
          else commandParamsFrom None s'
      | Some g =>
          if (c =? "}")%char then
            match g with
            | EmptyString => commandParamsFrom None s'
            | _ => g :: commandParamsFrom None s'
            end
          else commandParamsFrom (Some (g ++ String c EmptyString)) s'
      end
  end.

Definition commandParams (cmd : string) : list string :=
  commandParamsFrom None cmd.

(** One turn of [for (let key of keys)]. *)
Definition resolveKey (val : value) (key : string) : value :=
  if truthy val && hasOwnProperty val key then getProp val key
  else if endsWith "]" key && includes "[" key then
    let arrKey := jsSubstring 0 (indexOf "[" key) key in
    let indexStr :=
      jsSubstring (indexOf "[" key + 1) (String.length key - 1) key in
    match parseInt indexStr with
    | Some index =>
        if truthy val && hasOwnProperty val arrKey
           && isArray (getProp val arrKey)
           && (arrayLength (getProp val arrKey) >? index)
        then elementAt (getProp val arrKey) index
        else val
    | None => val
    end
  else val.

(** The name under which the parameter [p] is looked up in [params]: [p]
    itself, or what stands before its first dot. *)
Definition topName (p : string) : string :=
  if includes "." p then jsSubstring 0 (indexOf "." p) p else p.

(** The value [val] that the body of [commandParams.forEach] finds for the
    parameter [p], when [params[topName p]] is not read through the
    prototype chain. *)
Definition resolveParam (params : value) (p : string) : value :=
  if includes "." p then
    fold_left resolveKey (split "." p)
      (getProp params (jsSubstring 0 (indexOf "." p) p))
  else getProp params p.

(** One turn of [commandParams.forEach]; [None] when the pattern built from
    [p] is outside the modelled fragment, and when the value of [p] is read
    through the prototype chain of [params]. *)
Definition replaceParam (params : value) (cmd : option string) (p : string)
  : option string :=
  match cmd with
  | None => None
  | Some c =>
      if inheritedProp params (topName p) then None
      else
        match compileRegExp ("{" ++ p ++ "}") with
        | Some re => Some (replaceAll re (toString (resolveParam params p)) c)
        | None => None
        end
  end.

(** The command of the macro that [macros.map] builds from a macro with the
    command [cmd]. *)
Definition substituteCommand (params : value) (cmd : string) : option string :=
  fold_left (replaceParam params) (commandParams cmd) (Some cmd).

Definition substituteMacro (params : value) (m : ComMacro) : option ComMacro :=
  option_map (fun c => mkComMacro c (response m)) (substituteCommand params (command m)).

Fixpoint substituteMacros (params : value) (macros : list ComMacro)
  : option (list ComMacro) :=
  match macros with
  | [] => Some []
  | m :: rest =>
      match substituteMacro params m, substituteMacros params rest with
      | Some m', Some rest' => Some (m' :: rest')
      | _, _ => None
      end
  end.

(* ================================================================== *)
(** ** The connection: [ComPort] *)

Inductive PortState : Type := busy | closed | background | connecting.

Definition PortState_eqb (a b : PortState) : bool :=
  match a, b with
  | busy, busy | closed, closed | background, background
  | connecting, connecting => true
  | _, _ => false
  end.

(** The transport handle, a [SerialPort] of [__mocks__/serialport.ts]; its
    [path] is [portPath] here. *)
Record SerialPort : Type := mkSerialPort {
  isOpen : bool;
  portPath : string;
  baudRate : Z
}.

Record ComPort : Type := mkComPort {
  port : option SerialPort;
  readMatch : option RegExp;
  readComplete : bool;
  buffer : string;
  backgroundBuffer : list string;
  name : option string;
  state : PortState;
  type : option ComType;
  lastError : option string;
  timeout : Z;
  lineEnding : string;
  path : string
}.

(** [new ComPort(path)] *)
Definition newComPort (path : string) : ComPort :=
  mkComPort None None false EmptyString [] None closed None None 5000
    (String LF EmptyString) path.

Definition setPort (v : option SerialPort) (p : ComPort) : ComPort :=
  mkComPort v (readMatch p) (readComplete p) (buffer p) (backgroundBuffer p)
    (name p) (state p) (type p) (lastError p) (timeout p) (lineEnding p) (path p).
Definition setReadMatch (v : option RegExp) (p : ComPort) : ComPort :=
  mkComPort (port p) v (readComplete p) (buffer p) (backgroundBuffer p)
    (name p) (state p) (type p) (lastError p) (timeout p) (lineEnding p) (path p).
Definition setReadComplete (v : bool) (p : ComPort) : ComPort :=
  mkComPort (port p) (readMatch p) v (buffer p) (backgroundBuffer p)
    (name p) (state p) (type p) (lastError p) (timeout p) (lineEnding p) (path p).
Definition setBuffer (v : string) (p : ComPort) : ComPort :=
  mkComPort (port p) (readMatch p) (readComplete p) v (backgroundBuffer p)
    (name p) (state p) (type p) (lastError p) (timeout p) (lineEnding p) (path p).
Definition setBackgroundBuffer (v : list string) (p : ComPort) : ComPort :=
  mkComPort (port p) (readMatch p) (readComplete p) (buffer p) v
    (name p) (state p) (type p) (lastError p) (timeout p) (lineEnding p) (path p).
Definition setState (v : PortState) (p : ComPort) : ComPort :=
  mkComPort (port p) (readMatch p) (readComplete p) (buffer p) (backgroundBuffer p)
    (name p) v (type p) (lastError p) (timeout p) (lineEnding p) (path p).
Definition setTypeField (v : option ComType) (p : ComPort) : ComPort :=
  mkComPort (port p) (readMatch p) (readComplete p) (buffer p) (backgroundBuffer p)
    (name p) (state p) v (lastError p) (timeout p) (lineEnding p) (path p).
Definition setLastError (v : option string) (p : ComPort) : ComPort :=
  mkComPort (port p) (readMatch p) (readComplete p) (buffer p) (backgroundBuffer p)
    (name p) (state p) (type p) v (timeout p) (lineEnding p) (path p).

(** [this.port?.isOpen] as a condition. *)
Definition portIsOpen (p : ComPort) : bool :=
  match port p with
  | Some sp => isOpen sp
  | None => false
  end.

(** [this.lastError] as a condition: a message that is not empty. *)
Definition errorSet (e : option string) : bool :=
  match e with
  | Some m => negb (m =? "")%string
  | None => false
  end.

(* ------------------------------------------------------------------ *)
(** *** The outside world *)

(** What the transport emits: a chunk of data, or an error, which may have
    closed the transport. *)
Inductive Event : Type :=
| DataEvent (chunk : string)
| ErrorEvent (message : string) (closesPort : bool).

(** What happens while one timer is pending: the events delivered before the
    timer fires, and how late it fires. *)
Record Tick : Type := mkTick {
  events : list Event;
  lateness : nat
}.

(** The script of the outside world.  [openResponses], [writeResponses] and
    [closeResponses] are the mock's [mockOpenResponse], [mockWriteResponse]
    and [mockCloseResponse] at the successive calls ([None] is [null]; a
    script that has run out answers [null]); [ticks] are the successive
    timers; [written] records what was written to the transport. *)
Record World : Type := mkWorld {
  now : Z;
  openResponses : list (option string);
  writeResponses : list (option string);
  closeResponses : list (option string);
  ticks : list Tick;
  written : list string
}.

Definition nextResponse (l : list (option string)) : option string :=
  match l with
  | r :: _ => r
  | [] => None
  end.

Record System : Type := mkSystem {
  self : ComPort;
  world : World
}.

Definition withSelf (p : ComPort) (s : System) : System := mkSystem p (world s).

(** How a promise ends: resolved with a value, rejected with an error
    message, or never settled. *)
Inductive Outcome (A : Type) : Type :=
| Resolved (a : A)
| Rejected (e : string)
| Pending.
Arguments Resolved {A} a.
Arguments Rejected {A} e.
Arguments Pending {A}.

Definition Async (A : Type) : Type := System -> Outcome A * System.

Definition resolve {A} (a : A) : Async A := fun s => (Resolved a, s).
Definition throw {A} (e : string) : Async A := fun s => (Rejected e, s).

(** [await m] followed by [k]. *)
Definition bind {A B} (m : Async A) (k : A -> Async B) : Async B :=
  fun s =>
    match m s with
    | (Resolved a, s') => k a s'
    | (Rejected e, s') => (Rejected e, s')
    | (Pending, s') => (Pending, s')
    end.

Notation "x <- m ;; k" := (bind m (fun x => k))
  (at level 61, m at next level, right associativity).
Notation "m ;; k" := (bind m (fun _ => k))
  (at level 61, right associativity).

(** [try { m } finally { await f }]: [f] runs once [m] has settled; when [f]
    is rejected its error replaces the outcome of [m], and when [f] is never
    settled neither is the whole. *)
Definition tryFinally {A} (m : Async A) (f : Async unit) : Async A :=
  fun s =>
    match m s with
    | (Pending, s') => (Pending, s')
    | (o, s') =>
        match f s' with
        | (Resolved _, s'') => (o, s'')
        | (Rejected e, s'') => (Rejected e, s'')
        | (Pending, s'') => (Pending, s'')
        end
    end.

(* ------------------------------------------------------------------ *)
(** *** Events from the transport *)

(** [a.push(x)] *)
Definition push (a : list string) (x : string) : list string := (a ++ [x])%list.

(** [a[a.length - 1] += x] for a non-empty [a]. *)
Fixpoint appendToLast (a : list string) (x : string) : list string :=
  match a with
  | [] => []
  | [y] => [y ++ x]
  | y :: a' => y :: appendToLast a' x
  end.

(** [a.splice(start, count)] for [0 <= start]: what is left in [a]. *)
Definition splice (start count : nat) (a : list string) : list string :=
  (firstn start a ++ skipn (start + count) a)%list.

(** The body of [if (lines.length > 0)] in [receiveData]: the background
    buffer once the lines of [dataStr] have been added. *)
Definition logLines (dataStr : string) (log : list string) : list string :=
  match splitLines dataStr with
  | [] => log
  | first :: rest =>
      let joined :=
        match log with
        | [] => push log first
        | _ => appendToLast log first
        end in
      let added :=
        fold_left
          (fun b line => if (0 <? String.length (trim line))%nat then push b line else b)
          rest joined in
      if endsWith LF dataStr || endsWith CR dataStr then push added EmptyString
      else added
  end.

(** [// Limit background buffer size:] *)
Definition limitLog (log : list string) : list string :=
  if (1000 <? List.length log)%nat then splice (List.length log - 10) 10 log
  else log.

Definition noReadMatchMessage : string :=
  "State was busy reading data but no read RegExp was found to check for completion.".

Definition receiveData (data : string) (p : ComPort) : ComPort :=
  match state p with
  | background =>
      setBackgroundBuffer (limitLog (logLines data (backgroundBuffer p))) p
  | busy =>
      match readMatch p with
      | None => setState background (setLastError (Some noReadMatchMessage) p)
      | Some re =>
          let p1 := setBuffer (buffer p ++ data) p in
          if re (trim (buffer p1)) then setReadComplete true (setState background p1)
          else p1
      end
  | _ => p
  end.

(** [SerialPort.close] of the mock followed by the callback [ComPort.close]
    passes to it.  Without a handle no callback is installed and the promise
    is never settled. *)
Definition close : Async unit :=
  fun s =>
    match port (self s) with
    | None => (Pending, s)
    | Some sp =>
        let w := world s in
        let err := nextResponse (closeResponses w) in
        let w' := mkWorld (now w) (openResponses w) (writeResponses w)
                    (tl (closeResponses w)) (ticks w) (written w) in
        let sp' := mkSerialPort false (portPath sp) (baudRate sp) in
        let p1 := setPort (Some sp') (self s) in
        let p2 := if negb (isOpen sp') then setState closed (setPort None p1) else p1 in
        match err with
        | Some e => (Rejected e, mkSystem p2 w')
        | None => (Resolved tt, mkSystem p2 w')
        end
    end.

(** [receiveError]; the [close()] it starts is not awaited, and is taken to
    finish at once. *)
Definition receiveError (message : string) (s : System) : System :=
  let p := setLastError (Some message) (self s) in
  if portIsOpen p then withSelf (setState background p) s
  else
    let s1 := withSelf (setState closed p) s in
    match port p with
    | Some _ => snd (close s1)
    | None => s1
    end.

(** The transport emits [e]. *)
Definition deliver (s : System) (e : Event) : System :=
  match e with
  | DataEvent chunk => withSelf (receiveData chunk (self s)) s
  | ErrorEvent message closesPort =>
      let p := self s in
      let p' :=
        match port p with
        | Some sp =>
            if closesPort
            then setPort (Some (mkSerialPort false (portPath sp) (baudRate sp))) p
            else p
        | None => p
        end in
      receiveError message (withSelf p' s)
  end.

(** A timer of [ms] milliseconds runs out: the clock has advanced and the
    events of the next tick have been delivered. *)
Definition setTimeout (ms : Z) (s : System) : System :=
  let w := world s in
  let t := match ticks w with t :: _ => t | [] => mkTick [] 0 end in
  let w' := mkWorld (now w + Z.max 0 ms + Z.of_nat (lateness t))
              (openResponses w) (writeResponses w) (closeResponses w)
              (tl (ticks w)) (written w) in
  fold_left deliver (events t) (mkSystem (self s) w').

(** [await sleep(ms)] *)
Definition sleep (ms : Z) : Async unit := fun s => (Resolved tt, setTimeout ms s).

(* ------------------------------------------------------------------ *)
(** *** [connect], [read], [write] *)

Definition noBaudMessage : string :=
  "No baud rate set while trying to connect. Either pass the baud rate to the connect function or set a ComType first.".

(** [connect(baud?)]; [None], like [0], is a baud rate that is not given. *)
Definition connect (baudArg : option Z) : Async unit :=
  fun s =>
    let p := self s in
    let given := match baudArg with Some b => negb (b =? 0) | None => false end in
    match (if given then baudArg else option_map baud (type p)) with
    | None => (Rejected noBaudMessage, s)
    | Some b =>
        let p1 := setPort (Some (mkSerialPort false (path p) b)) (setState connecting p) in
        let w := world s in
        let w' := mkWorld (now w) (tl (openResponses w)) (writeResponses w)
                    (closeResponses w) (ticks w) (written w) in
        match nextResponse (openResponses w) with
        | Some e =>
            (Rejected e, mkSystem (setLastError (Some e) (setState closed p1)) w')
        | None =>
            (Resolved tt,
             mkSystem (setState background
                         (setPort (Some (mkSerialPort true (path p) b)) p1)) w')
        end
    end.

Definition timeoutMessage (p : ComPort) : string :=
  "Timeout after " ++ numToString (timeout p) ++ "ms while reading from port "
  ++ path p ++ ".".

(** [checkCompletion] of [read]; [polls] bounds the number of timers it may
    still start. *)
Fixpoint checkCompletion (polls : nat) (time : Z) (s : System)
  : Outcome string * System :=
  let p := self s in
  if readComplete p then (Resolved (trim (buffer p)), s)
  else if now (world s) - time >? timeout p then (Rejected (timeoutMessage p), s)
  else if errorSet (lastError p) then
    (Rejected (match lastError p with Some m => m | None => EmptyString end), s)
  else
    match polls with
    | S k => checkCompletion k time (setTimeout 100 s)
    | O => (Pending, s)
    end.

(** Every timer of [read] takes 100 ms or more, so the timeout has elapsed
    once this many have run out. *)
Definition pollBudget (timeout : Z) : nat := S (Z.to_nat (timeout / 100)).

Definition read (match_ : RegExp) : Async string :=
  fun s =>
    let time := now (world s) in
    let p := setReadComplete false
               (setLastError None
                  (setBuffer EmptyString (setReadMatch (Some match_) (self s)))) in
    checkCompletion (pollBudget (timeout p)) time (withSelf p s).

Definition portNotOpenMessage : string :=
  "Port not open. Please open the port via the connect function before attempting to write.".

Definition write (cmd : string) : Async unit :=
  fun s =>
    if negb (portIsOpen (self s)) then (Rejected portNotOpenMessage, s)
    else
      let w := world s in
      let w' := mkWorld (now w) (openResponses w) (tl (writeResponses w))
                  (closeResponses w) (ticks w)
                  (push (written w) (cmd ++ lineEnding (self s))) in
      match nextResponse (writeResponses w) with
      | Some e => (Rejected e, mkSystem (setLastError (Some e) (self s)) w')
      | None => (Resolved tt, mkSystem (self s) w')
      end.

(* ------------------------------------------------------------------ *)
(** *** [lockPort], [send], [setType] *)

(** [while (this.state === st && attempt < attempts) { await timer(ms); attempt++ }] *)
Fixpoint waitWhile (st : PortState) (ms : Z) (attempts : nat) (s : System) : System :=
  match attempts with
  | O => s
  | S k =>
      if PortState_eqb (state (self s)) st then waitWhile st ms k (setTimeout ms s)
      else s
  end.

Definition connectTimeoutMessage : string :=
  "Timeout while waiting for connection to complete.".
Definition lockTimeoutMessage : string :=
  "Timeout while waiting for port to become available.".

Definition lockPort : Async unit :=
  fun s =>
    if PortState_eqb (state (self s)) background then
      (Resolved tt, withSelf (setState busy (self s)) s)
    else
      ((if PortState_eqb (state (self s)) closed then connect None else resolve tt) ;;
       fun s1 =>
         let s2 := waitWhile connecting 100 10 s1 in
         if PortState_eqb (state (self s2)) connecting then
           (Rejected connectTimeoutMessage, s2)
         else
           let s3 := waitWhile busy 500 10 s2 in
           if PortState_eqb (state (self s3)) busy then
             (Rejected lockTimeoutMessage, s3)
           else (Resolved tt, withSelf (setState busy (self s3)) s3)) s.

(** [for (let macro of macros)] in [send]; [responses] holds the responses
    read so far. *)
Fixpoint executeMacros (macros : list ComMacro) (responses : list string)
  : Async (list string) :=
  match macros with
  | [] => resolve responses
  | macro :: rest =>
      lockPort ;;
      write (command macro) ;;
      r <- read (response macro) ;;
      executeMacros rest (push responses r)
  end.

Definition noMacrosMessage (p : ComPort) : string :=
  "No macros provided to send to com port " ++ path p ++ ".".
Definition noTypeMessage (p : ComPort) : string :=
  "Cannot send to com port " ++ path p ++ " by operationId without a type.".

(** [send(macros)] without [params]; [None] is [undefined]. *)
Definition sendPlain (macros : option (list ComMacro)) : Async (list string) :=
  fun s =>
    match macros with
    | None | Some [] => (Rejected (noMacrosMessage (self s)), s)
    | Some ms => executeMacros ms [] s
    end.

(** [send(macros, params)]; [VUndefined] stands for [params] that are not
    given.  The result is [None] when a token of a command gives a pattern
    outside the modelled fragment, or a value read through the prototype
    chain of [params]. *)
Definition sendMacros (macros : option (list ComMacro)) (params : value)
  : System -> option (Outcome (list string) * System) :=
  fun s =>
    match macros with
    | None | Some [] => Some (Rejected (noMacrosMessage (self s)), s)
    | Some ms =>
        if truthy params then
          match substituteMacros params ms with
          | Some ms' => Some (executeMacros ms' [] s)
          | None => None
          end
        else Some (executeMacros ms [] s)
    end.

(** [send(macros_operationId, params)] *)
Definition send (macros_operationId : list ComMacro + string) (params : value)
  : System -> option (Outcome (list string) * System) :=
  fun s =>
    match macros_operationId with
    | inr operationId =>
        match type (self s) with
        | None => Some (Rejected (noTypeMessage (self s)), s)
        | Some t => sendMacros (macrosOf t operationId) params s
        end
    | inl macros => sendMacros (Some macros) params s
    end.

(** [setType(type)]: the body of [try], then [await this.close()] in
    [finally]. *)
Definition setType (t : ComType) : Async bool :=
  tryFinally
    (connect (Some (baud t)) ;;
     sleep (startupDelay t) ;;
     sendPlain (Some (init t)) ;;
     fun s =>
       if readComplete (self s)
       then (Resolved true, withSelf (setTypeField (Some t) (self s)) s)
       else (Resolved false, s))
    close.

(* ------------------------------------------------------------------ *)
(** *** The loop of [send] in the compiled build

    The build of [ComPort] kept with the sources wraps the two steps of the
    loop in [try ... catch (err) { this.state = 'background'; throw err }].
    Its [lockPort] differs from the one above in the length of its timers
    and is a parameter here; its [write] and [read] are the ones above. *)

(** [try { await m } catch (err) { this.state = 'background'; throw err }] *)
Definition catchToBackground {A} (m : Async A) : Async A :=
  fun s =>
    match m s with
    | (Rejected e, s') => (Rejected e, withSelf (setState background (self s')) s')
    | r => r
    end.

Fixpoint executeMacrosBuild (lock : Async unit) (macros : list ComMacro)
    (responses : list string) : Async (list string) :=
  match macros with
  | [] => resolve responses
  | macro :: rest =>
      catchToBackground lock ;;
      r <- catchToBackground (write (command macro) ;; read (response macro)) ;;
      executeMacrosBuild lock rest (push responses r)
  end.

(* ------------------------------------------------------------------ *)
(** *** The classification of one port in [ComManager.scanPorts]

    [for (let type of this.types)], run for one new port: each type is
    tried with [setType]; a type for which [setType] returns [true] ends the
    loop once [port.connect()] has reopened the port; an error of [setType]
    or of [connect] is caught and the next type is tried.  [scanPorts] runs
    one such loop per port; the loop is taken here for one port alone. *)
Fixpoint tryTypes (types : list ComType) : Async unit :=
  match types with
  | [] => resolve tt
  | t :: rest =>
      fun s =>
        match setType t s with
        | (Resolved true, s1) =>
            match connect None s1 with
            | (Resolved _, s2) => (Resolved tt, s2)
            | (Rejected _, s2) => tryTypes rest s2
            | (Pending, s2) => (Pending, s2)
            end
        | (Resolved false, s1) => tryTypes rest s1
        | (Rejected _, s1) => tryTypes rest s1
        | (Pending, s1) => (Pending, s1)
        end
  end.

(* ------------------------------------------------------------------ *)
(** *** The hello of [ComManager.scanPorts] to a known port

    [send(operationId)] with no [params], and
    [try { await existingPort.send('init') }
     catch (err) { if (existingPort.state !== 'closed') await existingPort.close() }],
    which [scanPorts] runs for a port it already holds and that has a
    type. *)
Definition sendOperation (operationId : string) : Async (list string) :=
  fun s =>
    match type (self s) with
    | None => (Rejected (noTypeMessage (self s)), s)
    | Some t => sendPlain (macrosOf t operationId) s
    end.

Definition helloPort : Async unit :=
  fun s =>
    match sendOperation "init" s with
    | (Resolved _, s1) => (Resolved tt, s1)
    | (Rejected _, s1) =>
        if PortState_eqb (state (self s1)) closed then (Resolved tt, s1) else close s1
    | (Pending, s1) => (Pending, s1)
    end.

(* ================================================================== *)
(** ** The manager: [ComManager.getComPort] *)

Record ComManager : Type := mkComManager {
  ports : list ComPort;
  types : list ComType
}.

(** The [index_name] argument: a number or a string. *)
Inductive Selector : Type :=
| ByIndex (index : Z)
| ByName (portName : string).

(** What [getComPort] does: it returns a port, or [undefined] ([None]), or
    throws an error with a message. *)
Inductive Lookup : Type :=
| Returned (p : option ComPort)
| Thrown (message : string).

Definition hasType (tn : string) (p : ComPort) : bool :=
  match type p with
  | Some t => (typeName t =? tn)%string
  | None => false
  end.

Definition hasName (n : string) (p : ComPort) : bool :=
  match name p with
  | Some m => (m =? n)%string
  | None => false
  end.

(** [a[index]] for a number [index]. *)
Definition at_ {A} (a : list A) (index : Z) : option A :=
  if index <? 0 then None else nth_error a (Z.to_nat index).

Definition nameNotFoundMessage (n tn : string) : string :=
  "Port with name " ++ n ++ " not found for type " ++ tn ++ ".".

Definition indexNotFoundMessage (index : Z) (count : nat) (tn : string) : string :=
  "Port with index " ++ numToString index ++ " not found. "
  ++ numToString (Z.of_nat count) ++ " ports found of type " ++ tn ++ ".".

Definition getComPort (m : ComManager) (tn : string) (index_name : Selector) : Lookup :=
  let typePorts := filter (hasType tn) (ports m) in
  match index_name with
  | ByName n =>
      match find (hasName n) typePorts with
      | Some p => Returned (Some p)
      | None => Thrown (nameNotFoundMessage n tn)
      end
  | ByIndex index =>
      if index >=? Z.of_nat (List.length typePorts) then
        Thrown (indexNotFoundMessage index (List.length typePorts) tn)
      else Returned (at_ typePorts index)
  end.

(* ================================================================== *)
(** ** Definitions used to state the properties *)

(** The log after a chunk, said in one piece: the first line of the chunk is
    joined to the last entry (or starts the log), the later lines that are
    not blank follow in order, and a chunk that ends with a line terminator
    leaves an empty entry. *)
Definition notBlank (line : string) : bool :=
  (0 <? String.length (trim line))%nat.

Definition endsWithTerminator (dataStr : string) : bool :=
  endsWith LF dataStr || endsWith CR dataStr.

Definition joinFirst (log : list string) (first : string) : list string :=
  match log with
  | [] => [first]
  | _ => push (removelast log) (last log EmptyString ++ first)
  end.

Definition appendedLog (dataStr : string) (log : list string) : list string :=
  (joinFirst log (hd EmptyString (splitLines dataStr))
   ++ filter notBlank (tl (splitLines dataStr))
   ++ (if endsWithTerminator dataStr then [EmptyString] else []))%list.

(** A token that is a plain name: letters, digits and underscores, not
    starting with a digit. *)
Definition isWordChar (c : ascii) : bool :=
  isDigit c || (("a" <=? c) && (c <=? "z"))%char
  || (("A" <=? c) && (c <=? "Z"))%char || (c =? "_")%char.

Fixpoint allWordChars (s : string) : bool :=
  match s with
  | EmptyString => true
  | String c s' => isWordChar c && allWordChars s'
  end.

Definition isName (t : string) : bool :=
  match t with
  | EmptyString => false
  | String c _ => negb (isDigit c) && allWordChars t
  end.

(** The response pattern [/INITTED/], [/SOME INSTRUCTIONS/], ...: the text
    occurs somewhere in the subject. *)
Fixpoint occursIn (needle subject : string) : bool :=
  prefix needle subject
  || match subject with
     | EmptyString => false
     | String _ rest => occursIn needle rest
     end.

(** The device type of the tests: [new ComType('mock', 9600,
    { init: [new ComMacro('INIT', /INITTED/)] })]. *)
Definition mockType : ComType :=
  mkComType "mock" 9600 [mkComMacro "INIT" (occursIn "INITTED")] [] 0.

(** A world in which every transport call succeeds, nothing arrives and
    every timer fires on time. *)
Definition quietWorld : World := mkWorld 0 [] [] [] [] [].

(** [new ComPort('/dev/serialportMock')], and the same port once
    [connect(9600)] has resolved. *)
Definition mockPort : ComPort := newComPort "/dev/serialportMock".

Definition connectedPort : ComPort :=
  setState background
    (setPort (Some (mkSerialPort true "/dev/serialportMock" 9600)) mockPort).

(** Two ports of type [mock] and one without a type, as after a scan. *)
Definition twoMockPorts : ComManager :=
  mkComManager
    [setTypeField (Some mockType) (newComPort "/dev/a");
     newComPort "/dev/b";
     setTypeField (Some mockType) (newComPort "/dev/c")]
    [mockType].

(** The fields of a port that no event touches. *)
Definition sameSettings (p p' : ComPort) : Prop :=
  timeout p' = timeout p /\ path p' = path p /\ readMatch p' = readMatch p
  /\ lineEnding p' = lineEnding p /\ type p' = type p.

(** What holds of a port from the moment [read(m)] has reset it: the pattern
    is [m], and once the read is complete the port is no longer busy and the
    trimmed buffer matches. *)
Definition readInv (m : RegExp) (p : ComPort) : Prop :=
  readMatch p = Some m
  /\ (readComplete p = true -> state p <> busy /\ m (trim (buffer p)) = true).

(** [comPort.timeout = ms] *)
Definition withTimeout (ms : Z) (p : ComPort) : ComPort :=
  mkComPort (port p) (readMatch p) (readComplete p) (buffer p) (backgroundBuffer p)
    (name p) (state p) (type p) (lastError p) ms (lineEnding p) (path p).

(** The connected port while a send is in flight, and the same port in the
    middle of [read(/INITTED/)], after the chunk [INIT]. *)
Definition busyPort : ComPort := setState busy connectedPort.

Definition readingPort : ComPort :=
  setBuffer "INIT" (setReadMatch (Some (occursIn "INITTED")) busyPort).

(** [new ComMacro('HELP', /SOME INSTRUCTIONS/)] *)
Definition helpMacro : ComMacro := mkComMacro "HELP" (occursIn "SOME INSTRUCTIONS").

(** Worlds of the scenarios: the device answers [INITTED] in two chunks
    during the first timer; the device answers [INITTED] during the second
    timer (the first one is the startup delay of [setType]); the transport
    emits an error with an empty message; the write fails; the open fails. *)
Definition splitResponseWorld : World :=
  mkWorld 0 [] [] [] [mkTick [DataEvent "INIT"; DataEvent "TED"] 0] [].

Definition respondingWorld : World :=
  mkWorld 0 [] [] [] [mkTick [] 0; mkTick [DataEvent "INITTED"] 0] [].

Definition emptyErrorWorld : World :=
  mkWorld 0 [] [] [] [mkTick [ErrorEvent "" false] 0] [].

Definition writeFailWorld : World :=
  mkWorld 0 [] [Some "Write failed"] [] [] [].

Definition openFailWorld : World :=
  mkWorld 0 [Some "Failed to open port"] [] [] [] [].

(** The pattern that matches the text [t] and nothing else. *)
Fixpoint literal (t : string) : TokenPattern :=
  match t with
  | EmptyString => []
  | String c t' => AChar c :: literal t'
  end.

(** [{user: {addresses: [{city: "X"}]}}] *)
Definition cityParams : value :=
  VObj [("user", VObj [("addresses", VArr [VObj [("city", VStr "X")]])])].

(** [new ComMacro('GOTO {user.addresses[0].city}', /OK/)] *)
Definition gotoMacro : ComMacro :=
  mkComMacro "GOTO {user.addresses[0].city}" (occursIn "OK").

(** A line feed, as a string. *)
Definition nl : string := String LF EmptyString.




(** A world in which no error closes the transport. *)
Definition closingEvent (e : Event) : bool :=
  match e with
  | ErrorEvent _ closesPort => closesPort
  | DataEvent _ => false
  end.

Definition calm (w : World) : bool :=
  forallb (fun t => forallb (fun e => negb (closingEvent e)) (events t)) (ticks w).

(** A port whose transport is open and which is idle or sending; a system
    that holds such a port in a calm world; an outcome that is settled and
    leaves such a system. *)
Definition attached (p : ComPort) : Prop :=
  portIsOpen p = true /\ (state p = background \/ state p = busy).

Definition steady (s : System) : Prop :=
  attached (self s) /\ calm (world s) = true.

Definition safe {A} (r : Outcome A * System) : Prop :=
  fst r <> Pending /\ steady (snd r).

(** The settings of a port that neither its methods nor the transport
    change. *)
Definition sameConfig (p p' : ComPort) : Prop :=
  timeout p' = timeout p /\ path p' = path p
  /\ lineEnding p' = lineEnding p /\ name p' = name p /\ type p' = type p.

(** A step that writes nothing and keeps the settings. *)
Definition silent (s s' : System) : Prop :=
  sameConfig (self s) (self s') /\ written (world s') = written (world s).

(** What the port writes for a macro. *)
Definition wireText (p : ComPort) (m : ComMacro) : string :=
  command m ++ lineEnding p.


(** A step that keeps a property of the world. *)
Definition keeps (P : World -> Prop) {A} (f : Async A) : Prop :=
  forall s, P (world s) -> P (world (snd (f s))).

(** A port as a scan leaves it: open and idle or sending, or closed with no
    open handle; in a calm world. *)
Definition parked (s : System) : Prop :=
  calm (world s) = true
  /\ (attached (self s) \/ state (self s) = closed /\ portIsOpen (self s) = false).

(* ================================================================== *)
(** * Properties *)

(** ** [ComManager.getComPort] *)

Section GetComPort.

Variable m : ComManager.
Variable tn : string.

Let typePorts := filter (hasType tn) (ports m).

Lemma at_in_range (index : Z) :
  0 <= index < Z.of_nat (List.length typePorts) ->
  exists p, nth_error typePorts (Z.to_nat index) = Some p
            /\ at_ typePorts index = Some p.
Proof.
  intros [Hlo Hhi]. unfold at_.
  destruct (Z.ltb_spec index 0) as [Hneg | _]; [lia |].
  destruct (nth_error typePorts (Z.to_nat index)) as [p |] eqn:Hnth.
  - exists p. split; reflexivity.
  - apply nth_error_None in Hnth. lia.
Qed.

(** C8. With an index at or past the number of ports of the type,
    [getComPort] throws an error whose message gives the index and that
    number; with an index inside the range it returns the port at that
    place among the ports of the type, taken in the order of [ports]. *)
Theorem getComPort_by_index (index : Z) :
  (Z.of_nat (List.length typePorts) <= index ->
   getComPort m tn (ByIndex index)
   = Thrown ("Port with index " ++ numToString index ++ " not found. "
             ++ numToString (Z.of_nat (List.length typePorts))
             ++ " ports found of type " ++ tn ++ "."))
  /\ (0 <= index < Z.of_nat (List.length typePorts) ->
      exists p, nth_error typePorts (Z.to_nat index) = Some p
                /\ getComPort m tn (ByIndex index) = Returned (Some p)).
Proof.
  split; intros H; unfold getComPort; fold typePorts.
  - destruct (Z.geb_spec index (Z.of_nat (List.length typePorts))); [| lia].
    reflexivity.
  - destruct (Z.geb_spec index (Z.of_nat (List.length typePorts))); [lia |].
    destruct (at_in_range index H) as [p [Hnth Hat]].
    exists p. rewrite Hat. split; [exact Hnth | reflexivity].
Qed.

(** C10. With a negative index [getComPort] does not throw: the test
    [index >= typePorts.length] is false, and what it returns is
    [undefined]. *)
Theorem getComPort_negative_index (index : Z) :
  index < 0 -> getComPort m tn (ByIndex index) = Returned None.
Proof.
  intros H. unfold getComPort.
  destruct (Z.geb_spec index (Z.of_nat (List.length (filter (hasType tn) (ports m)))));
    [lia |].
  unfold at_. destruct (Z.ltb_spec index 0); [reflexivity | lia].
Qed.

End GetComPort.

Lemma getComPort_by_index_witness :
  getComPort twoMockPorts "mock" (ByIndex 99)
  = Thrown "Port with index 99 not found. 2 ports found of type mock."
  /\ exists p, path p = "/dev/c"
               /\ getComPort twoMockPorts "mock" (ByIndex 1) = Returned (Some p).
Proof.
  split.
  - apply (proj1 (getComPort_by_index twoMockPorts "mock" 99)). vm_compute.
    discriminate.
  - destruct (proj2 (getComPort_by_index twoMockPorts "mock" 1)) as [p [Hnth Hget]].
    + vm_compute. split; [discriminate | reflexivity].
    + exists p. split; [| exact Hget].
      vm_compute in Hnth. injection Hnth as <-. reflexivity.
Defined.

Lemma getComPort_negative_index_witness :
  -1 < 0 /\ getComPort twoMockPorts "mock" (ByIndex (-1)) = Returned None.
Proof.
  split; [lia | apply getComPort_negative_index; lia].
Defined.

(* ================================================================== *)
(** ** [close] and [setType] *)

(** C9. Without a transport handle, [close()] returns a promise that is
    neither resolved nor rejected, and changes nothing. *)
Theorem close_without_handle_never_settles (s : System) :
  port (self s) = None -> close s = (Pending, s).
Proof.
  intros H. unfold close. rewrite H. reflexivity.
Qed.

Lemma close_without_handle_never_settles_witness :
  port (self (mkSystem mockPort quietWorld)) = None
  /\ close (mkSystem mockPort quietWorld) = (Pending, mkSystem mockPort quietWorld).
Proof.
  split; [reflexivity | apply close_without_handle_never_settles; reflexivity].
Defined.

(** Once [close()] has settled, the handle is gone and the state is
    [closed]. *)
Lemma close_settled (s s' : System) (o : Outcome unit) :
  close s = (o, s') -> o <> Pending ->
  state (self s') = closed /\ port (self s') = None.
Proof.
  unfold close. destruct (port (self s)) as [sp |].
  - cbn [isOpen negb].
    destruct (nextResponse (closeResponses (world s)));
      intros H _; injection H as _ <-; split; reflexivity.
  - intros H Hne. injection H as <- _. contradiction.
Qed.

(** A [try ... finally] that has settled has run its [finally] part to the
    end. *)
Lemma tryFinally_settled {A} (m : Async A) (f : Async unit)
    (s s' : System) (o : Outcome A) :
  tryFinally m f s = (o, s') -> o <> Pending ->
  exists s1 o1, f s1 = (o1, s') /\ o1 <> Pending.
Proof.
  unfold tryFinally. destruct (m s) as [o0 s1].
  destruct o0 as [a | e |].
  - destruct (f s1) as [o1 s2] eqn:Hf. destruct o1 as [u | e1 |];
      intros H Hne; injection H as <- <-.
    + exists s1, (Resolved u). split; [exact Hf | discriminate].
    + exists s1, (Rejected e1). split; [exact Hf | discriminate].
    + contradiction.
  - destruct (f s1) as [o1 s2] eqn:Hf. destruct o1 as [u | e1 |];
      intros H Hne; injection H as <- <-.
    + exists s1, (Resolved u). split; [exact Hf | discriminate].
    + exists s1, (Rejected e1). split; [exact Hf | discriminate].
    + contradiction.
  - intros H Hne. injection H as <- _. contradiction.
Qed.

(** Once [setType] has settled, the state is [closed] and the handle is
    gone. *)
Lemma setType_settled_closed (t : ComType) (s s' : System) (o : Outcome bool) :
  setType t s = (o, s') -> o <> Pending ->
  state (self s') = closed /\ port (self s') = None.
Proof.
  intros Hrun Hne. unfold setType in Hrun.
  destruct (tryFinally_settled _ _ _ _ _ Hrun Hne) as [s1 [o1 [Hclose Hne1]]].
  exact (close_settled _ _ _ Hclose Hne1).
Qed.

(* ================================================================== *)
(** ** What events and timers leave unchanged *)

Lemma sameSettings_refl (p : ComPort) : sameSettings p p.
Proof. repeat split. Qed.

Lemma sameSettings_trans (p q r : ComPort) :
  sameSettings p q -> sameSettings q r -> sameSettings p r.
Proof.
  unfold sameSettings. intros (a1 & a2 & a3 & a4 & a5) (b1 & b2 & b3 & b4 & b5).
  repeat split; congruence.
Qed.

Lemma receiveData_settings (d : string) (p : ComPort) :
  sameSettings p (receiveData d p).
Proof.
  unfold receiveData. destruct (state p); try apply sameSettings_refl.
  - destruct (readMatch p) as [re |] eqn:Hre.
    + cbn zeta. destruct (re _); repeat split; cbn; congruence.
    + repeat split; cbn; congruence.
  - repeat split.
Qed.

Lemma close_settings (s : System) :
  sameSettings (self s) (self (snd (close s)))
  /\ now (world (snd (close s))) = now (world s).
Proof.
  unfold close. destruct (port (self s)) as [sp |].
  - cbn [isOpen negb]. destruct (nextResponse _); repeat split.
  - repeat split.
Qed.

Lemma receiveError_settings (e : string) (s : System) :
  sameSettings (self s) (self (receiveError e s))
  /\ now (world (receiveError e s)) = now (world s).
Proof.
  unfold receiveError. destruct (portIsOpen _).
  - repeat split.
  - destruct (port (setLastError (Some e) (self s))).
    + match goal with |- context [close ?x] => destruct (close_settings x) as [H1 H2] end.
      split; [| exact H2].
      eapply sameSettings_trans; [| exact H1]. repeat split.
    + repeat split.
Qed.

Lemma deliver_settings (s : System) (e : Event) :
  sameSettings (self s) (self (deliver s e))
  /\ now (world (deliver s e)) = now (world s).
Proof.
  destruct e as [chunk | message closesPort]; cbn [deliver].
  - split; [apply receiveData_settings | reflexivity].
  - match goal with |- context [receiveError _ ?x] =>
      destruct (receiveError_settings message x) as [H1 H2] end.
    split; [| exact H2].
    eapply sameSettings_trans; [| exact H1].
    destruct (port (self s)); [destruct closesPort |]; repeat split.
Qed.

Lemma deliverAll_settings (es : list Event) (s : System) :
  sameSettings (self s) (self (fold_left deliver es s))
  /\ now (world (fold_left deliver es s)) = now (world s).
Proof.
  revert s. induction es as [| e es IH]; intros s; cbn [fold_left].
  - split; [apply sameSettings_refl | reflexivity].
  - destruct (IH (deliver s e)) as [H1 H2].
    destruct (deliver_settings s e) as [H3 H4].
    split; [eapply sameSettings_trans; eassumption | congruence].
Qed.

Lemma setTimeout_settings (ms : Z) (s : System) :
  sameSettings (self s) (self (setTimeout ms s))
  /\ now (world s) + Z.max 0 ms <= now (world (setTimeout ms s)).
Proof.
  unfold setTimeout.
  match goal with |- context [fold_left deliver ?es ?x] =>
    destruct (deliverAll_settings es x) as [H1 H2] end.
  split; [exact H1 |].
  rewrite H2. cbn [world now]. lia.
Qed.

(* ================================================================== *)
(** ** [read] *)

Lemma receiveData_readInv (m : RegExp) (d : string) (p : ComPort) :
  readInv m p -> readInv m (receiveData d p).
Proof.
  intros [Hm Hc]. unfold receiveData. destruct (state p) eqn:Hst.
  - rewrite Hm. cbn zeta. cbn [buffer setBuffer].
    destruct (m (trim (buffer p ++ d))) eqn:Hmatch.
    + split; [exact Hm |]. intros _. cbn. split; [discriminate | exact Hmatch].
    + split; [exact Hm |]. cbn. intros Hrc. destruct (Hc Hrc) as [Hnb _].
      exfalso. apply Hnb. reflexivity.
  - split; [exact Hm |]. rewrite Hst. exact Hc.
  - split; [exact Hm |]. cbn. rewrite Hst. exact Hc.
  - split; [exact Hm |]. rewrite Hst. exact Hc.
Qed.

Lemma close_readInv (m : RegExp) (s : System) :
  readInv m (self s) -> readInv m (self (snd (close s))).
Proof.
  intros [Hm Hc]. unfold close. destruct (port (self s)) as [sp |].
  - cbn [isOpen negb]. destruct (nextResponse _); cbn; (split; [exact Hm |]);
      intros Hrc; (split; [discriminate | exact (proj2 (Hc Hrc))]).
  - split; assumption.
Qed.

Lemma receiveError_readInv (m : RegExp) (e : string) (s : System) :
  readInv m (self s) -> readInv m (self (receiveError e s)).
Proof.
  intros [Hm Hc]. unfold receiveError. destruct (portIsOpen _).
  - cbn. split; [exact Hm |]. intros Hrc.
    split; [discriminate | exact (proj2 (Hc Hrc))].
  - assert (Hinv : readInv m (setState closed (setLastError (Some e) (self s)))).
    { split; [exact Hm |]. cbn. intros Hrc.
      split; [discriminate | exact (proj2 (Hc Hrc))]. }
    destruct (port (setLastError (Some e) (self s))).
    + apply close_readInv. exact Hinv.
    + exact Hinv.
Qed.

Lemma deliver_readInv (m : RegExp) (s : System) (e : Event) :
  readInv m (self s) -> readInv m (self (deliver s e)).
Proof.
  intros Hinv. destruct e as [chunk | message closesPort]; cbn [deliver].
  - apply receiveData_readInv. exact Hinv.
  - apply receiveError_readInv. cbn [self withSelf].
    destruct (port (self s)); [destruct closesPort |]; exact Hinv.
Qed.

Lemma setTimeout_readInv (m : RegExp) (ms : Z) (s : System) :
  readInv m (self s) -> readInv m (self (setTimeout ms s)).
Proof.
  unfold setTimeout.
  set (s0 := mkSystem (self s) _). intros Hinv.
  assert (H0 : readInv m (self s0)) by exact Hinv.
  clearbody s0. clear Hinv.
  generalize dependent s0.
  induction (events match ticks (world s) with t :: _ => t | [] => mkTick [] 0 end)
    as [| e es IH]; intros s0 H0; cbn [fold_left].
  - exact H0.
  - apply IH. apply deliver_readInv. exact H0.
Qed.

Lemma checkCompletion_settles (polls : nat) (time : Z) (s : System) :
  timeout (self s) < 100 * Z.of_nat polls + (now (world s) - time) ->
  fst (checkCompletion polls time s) <> Pending.
Proof.
  revert s. induction polls as [| k IH]; intros s Hlate; cbn [checkCompletion].
  - destruct (readComplete (self s)); [discriminate |].
    destruct (Z.gtb_spec (now (world s) - time) (timeout (self s))); [discriminate | lia].
  - destruct (readComplete (self s)); [discriminate |].
    destruct (Z.gtb_spec (now (world s) - time) (timeout (self s))); [discriminate |].
    destruct (errorSet (lastError (self s))); [discriminate |].
    apply IH.
    destruct (setTimeout_settings 100 s) as [(Ht & _) Hnow].
    rewrite Ht. lia.
Qed.

Lemma pollBudget_enough (t : Z) : t < 100 * Z.of_nat (pollBudget t).
Proof.
  unfold pollBudget. rewrite Nat2Z.inj_succ.
  destruct (Z.le_gt_cases 0 t) as [Hpos | Hneg].
  - rewrite Z2Nat.id by (apply Z.div_pos; lia).
    pose proof (Z.mod_pos_bound t 100 ltac:(lia)).
    pose proof (Z.div_mod t 100 ltac:(lia)). lia.
  - assert (0 <= Z.of_nat (Z.to_nat (t / 100))) by lia. lia.
Qed.

(** How a poll of [read] ends, for a port that [read(m)] has reset. *)
Lemma checkCompletion_outcome (m : RegExp) (polls : nat) (time : Z) (s : System) :
  readInv m (self s) ->
  match checkCompletion polls time s with
  | (Resolved v, s') =>
      v = trim (buffer (self s')) /\ m v = true /\ readComplete (self s') = true
  | (Rejected e, s') =>
      (e = timeoutMessage (self s') /\ timeout (self s') < now (world s') - time)
      \/ (lastError (self s') = Some e /\ e <> EmptyString)
  | (Pending, _) => True
  end.
Proof.
  revert s. induction polls as [| k IH]; intros s Hinv; cbn [checkCompletion].
  - destruct (readComplete (self s)) eqn:Hrc.
    + split; [reflexivity | split; [exact (proj2 (proj2 Hinv Hrc)) | exact Hrc]].
    + destruct (Z.gtb_spec (now (world s) - time) (timeout (self s))).
      * left. split; [reflexivity | lia].
      * destruct (lastError (self s)) as [msg |] eqn:He; cbn [errorSet]; [| exact I].
        destruct (String.eqb_spec msg ""); cbn [negb]; [exact I |].
        right. split; [exact He | assumption].
  - destruct (readComplete (self s)) eqn:Hrc.
    + split; [reflexivity | split; [exact (proj2 (proj2 Hinv Hrc)) | exact Hrc]].
    + destruct (Z.gtb_spec (now (world s) - time) (timeout (self s))).
      * left. split; [reflexivity | lia].
      * destruct (lastError (self s)) as [msg |] eqn:He; cbn [errorSet].
        -- destruct (String.eqb_spec msg ""); cbn [negb].
           ++ apply IH. apply setTimeout_readInv. exact Hinv.
           ++ right. split; [exact He | assumption].
        -- apply IH. apply setTimeout_readInv. exact Hinv.
Qed.

(** The decision taken at one poll, in the order of the source. *)
Lemma checkCompletion_decision (polls : nat) (time : Z) (s : System) :
  (readComplete (self s) = true ->
   checkCompletion polls time s = (Resolved (trim (buffer (self s))), s))
  /\ (readComplete (self s) = false ->
      timeout (self s) < now (world s) - time ->
      checkCompletion polls time s
      = (Rejected ("Timeout after " ++ numToString (timeout (self s))
                   ++ "ms while reading from port " ++ path (self s) ++ "."), s))
  /\ (forall e, readComplete (self s) = false ->
      now (world s) - time <= timeout (self s) ->
      lastError (self s) = Some e -> e <> EmptyString ->
      checkCompletion polls time s = (Rejected e, s)).
Proof.
  repeat split.
  - intros Hrc. destruct polls; cbn [checkCompletion]; rewrite Hrc; reflexivity.
  - intros Hrc Hlate.
    destruct polls; cbn [checkCompletion]; rewrite Hrc;
      (destruct (Z.gtb_spec (now (world s) - time) (timeout (self s))); [| lia]);
      reflexivity.
  - intros e Hrc Hearly He Hne.
    destruct polls; cbn [checkCompletion]; rewrite Hrc;
      (destruct (Z.gtb_spec (now (world s) - time) (timeout (self s))); [lia |]);
      rewrite He; cbn [errorSet];
      (destruct (String.eqb_spec e ""); [contradiction |]); reflexivity.
Qed.

(** A chunk that arrives while the port is busy is added to the buffer, and
    the pattern is tried on the whole trimmed buffer. *)
Lemma receiveData_busy (d : string) (p : ComPort) (re : RegExp) :
  state p = busy -> readMatch p = Some re ->
  buffer (receiveData d p) = buffer p ++ d
  /\ (re (trim (buffer p ++ d)) = true ->
      readComplete (receiveData d p) = true /\ state (receiveData d p) = background)
  /\ (re (trim (buffer p ++ d)) = false ->
      readComplete (receiveData d p) = readComplete p /\ state (receiveData d p) = busy).
Proof.
  intros Hst Hre. unfold receiveData. rewrite Hst, Hre. cbn zeta.
  cbn [buffer setBuffer]. destruct (re (trim (buffer p ++ d))); cbn.
  - split; [reflexivity |]. split; intros H; [split; reflexivity | discriminate].
  - split; [reflexivity |]. split; intros H; [discriminate | split; [reflexivity | exact Hst]].
Qed.

Lemma checkCompletion_settings (polls : nat) (time : Z) (s : System) :
  sameSettings (self s) (self (snd (checkCompletion polls time s))).
Proof.
  revert s. induction polls as [| k IH]; intros s; cbn [checkCompletion];
    destruct (readComplete (self s)); try apply sameSettings_refl;
    destruct (now (world s) - time >? timeout (self s)); try apply sameSettings_refl;
    destruct (errorSet (lastError (self s))); try apply sameSettings_refl.
  eapply sameSettings_trans; [apply (setTimeout_settings 100 s) | apply IH].
Qed.

(** How [read] ends. *)
Lemma read_outcome (m : RegExp) (s : System) :
  match read m s with
  | (Resolved v, s') =>
      v = trim (buffer (self s')) /\ m v = true /\ readComplete (self s') = true
  | (Rejected e, s') =>
      (e = timeoutMessage (self s)
       /\ timeout (self s) < now (world s') - now (world s))
      \/ (lastError (self s') = Some e /\ e <> EmptyString)
  | (Pending, _) => False
  end.
Proof.
  unfold read.
  set (p0 := setReadComplete false _).
  set (s0 := withSelf p0 s).
  assert (Hinv : readInv m (self s0)).
  { split; [reflexivity |]. cbn. discriminate. }
  pose proof (checkCompletion_outcome m (pollBudget (timeout p0)) (now (world s)) s0 Hinv)
    as Hout.
  pose proof (checkCompletion_settles (pollBudget (timeout p0)) (now (world s)) s0)
    as Hsettle.
  pose proof (checkCompletion_settings (pollBudget (timeout p0)) (now (world s)) s0)
    as (Ht & Hp & _).
  destruct (checkCompletion (pollBudget (timeout p0)) (now (world s)) s0)
    as [[v | e |] s'].
  - exact Hout.
  - destruct Hout as [[He Hlate] | Herr]; [left | right; exact Herr].
    cbn [snd] in Ht, Hp. unfold timeoutMessage in He |- *.
    rewrite Ht, Hp in He. rewrite Ht in Hlate. split; [exact He | exact Hlate].
  - apply Hsettle; [| reflexivity].
    pose proof (pollBudget_enough (timeout p0)).
    change (timeout (self s0)) with (timeout p0).
    change (now (world s0)) with (now (world s)). lia.
Qed.

(* ================================================================== *)
(** ** The loop of [send] *)

(** When the loop resolves, every macro has been answered by a response that
    its pattern matches, and the last read is complete. *)
Lemma executeMacros_resolved (macros : list ComMacro) :
  forall (responses0 responses : list string) (s s' : System),
    executeMacros macros responses0 s = (Resolved responses, s') ->
    exists added,
      responses = (responses0 ++ added)%list
      /\ Forall2 (fun m r => response m r = true) macros added
      /\ (macros <> [] -> readComplete (self s') = true).
Proof.
  induction macros as [| m rest IH]; intros rs0 rs s s' Hrun.
  - cbn in Hrun. injection Hrun as <- <-. exists []. rewrite app_nil_r.
    split; [reflexivity |]. split; [constructor | intros H; contradiction].
  - cbn [executeMacros] in Hrun. unfold bind in Hrun.
    destruct (lockPort s) as [[[] | e |] s1]; try discriminate.
    destruct (write (command m) s1) as [[[] | e |] s2]; try discriminate.
    pose proof (read_outcome (response m) s2) as Hread.
    destruct (read (response m) s2) as [[r | e |] s3]; try discriminate.
    destruct Hread as (_ & Hmatch & Hrc).
    destruct (IH _ _ _ _ Hrun) as (added & Heq & Hall & Hlast).
    exists (r :: added). split; [| split].
    + rewrite Heq. unfold push. rewrite <- app_assoc. reflexivity.
    + constructor; assumption.
    + intros _. destruct rest as [| m' rest'].
      * cbn in Hrun. injection Hrun as _ <-. exact Hrc.
      * apply Hlast. discriminate.
Qed.

(* ================================================================== *)
(** ** [setType]: its outcomes *)

(** [setType] resolves only with [true], with the type assigned, and only
    when the probe resolved with a matching response for every macro of
    [init]. *)
Lemma setType_resolved (t : ComType) (s s' : System) (b : bool) :
  setType t s = (Resolved b, s') ->
  b = true /\ type (self s') = Some t
  /\ exists s1 responses,
       (connect (Some (baud t)) ;; sleep (startupDelay t) ;; sendPlain (Some (init t))) s
       = (Resolved responses, s1)
       /\ Forall2 (fun m r => response m r = true) (init t) responses.
Proof.
  unfold setType, tryFinally, bind.
  destruct (connect (Some (baud t)) s) as [[[] | e |] s1].
  - destruct (sleep (startupDelay t) s1) as [[[] | e |] s2].
    + destruct (sendPlain (Some (init t)) s2) as [[rs | e |] s3] eqn:Hsend.
      * unfold sendPlain in Hsend. destruct (init t) as [| m ms] eqn:Hinit;
          [discriminate |].
        destruct (executeMacros_resolved _ _ _ _ _ Hsend) as (added & Heq & Hall & Hrc).
        rewrite (Hrc ltac:(discriminate)).
        match goal with |- context [close ?x] =>
          pose proof (close_settings x) as [(_ & _ & _ & _ & Hty) _];
          destruct (close x) as [[[] | e |] s4] end; try discriminate.
        intros H. injection H as <- <-. cbn [snd] in Hty.
        split; [reflexivity |]. split; [rewrite Hty; reflexivity |].
        exists s3, rs. split; [reflexivity |]. rewrite Heq. exact Hall.
      * destruct (close s3) as [[[] | e' |] s4]; discriminate.
      * discriminate.
    + destruct (close s2) as [[[] | e' |] s4]; discriminate.
    + discriminate.
  - destruct (close s1) as [[[] | e' |] s4]; discriminate.
  - discriminate.
Qed.

(** When the open fails and the close that follows does not, [setType] is
    rejected with the error of the open. *)
Lemma setType_open_failure (t : ComType) (s : System) (e : string) :
  baud t <> 0 ->
  nextResponse (openResponses (world s)) = Some e ->
  nextResponse (closeResponses (world s)) = None ->
  fst (setType t s) = Rejected e.
Proof.
  intros Hbaud Hopen Hclose.
  unfold setType, tryFinally, bind, connect.
  destruct (Z.eqb_spec (baud t) 0) as [| _]; [contradiction |].
  cbn [negb]. rewrite Hopen. unfold close. cbn. rewrite Hclose. reflexivity.
Qed.

(** A timer during which nothing arrives only moves the clock. *)
Lemma setTimeout_quiet (ms : Z) (s : System) :
  ticks (world s) = [] ->
  self (setTimeout ms s) = self s
  /\ ticks (world (setTimeout ms s)) = []
  /\ now (world (setTimeout ms s)) = now (world s) + Z.max 0 ms
  /\ writeResponses (world (setTimeout ms s)) = writeResponses (world s)
  /\ closeResponses (world (setTimeout ms s)) = closeResponses (world s).
Proof.
  intros H. unfold setTimeout. rewrite H. cbn. repeat split. lia.
Qed.

(** With nothing arriving, a read that is neither complete nor in error
    polls until the timeout has elapsed and is rejected with the timeout
    error. *)
Lemma checkCompletion_quiet (polls : nat) (time : Z) :
  forall s : System,
    ticks (world s) = [] ->
    readComplete (self s) = false ->
    lastError (self s) = None ->
    timeout (self s) < 100 * Z.of_nat polls + (now (world s) - time) ->
    fst (checkCompletion polls time s) = Rejected (timeoutMessage (self s))
    /\ self (snd (checkCompletion polls time s)) = self s
    /\ closeResponses (world (snd (checkCompletion polls time s)))
       = closeResponses (world s).
Proof.
  induction polls as [| k IH]; intros s Hq Hrc Herr Hlate; cbn [checkCompletion];
    rewrite Hrc, Herr; cbn [errorSet].
  - destruct (Z.gtb_spec (now (world s) - time) (timeout (self s))); [| lia].
    repeat split.
  - destruct (Z.gtb_spec (now (world s) - time) (timeout (self s))).
    + repeat split.
    + destruct (setTimeout_quiet 100 s Hq) as (Hself & Hticks & Hnow & _ & Hcl).
      destruct (IH (setTimeout 100 s)) as (H1 & H2 & H3).
      * exact Hticks.
      * rewrite Hself. exact Hrc.
      * rewrite Hself. exact Herr.
      * rewrite Hself, Hnow. lia.
      * rewrite H1, H2, H3, Hself, Hcl. repeat split.
Qed.

(* ------------------------------------------------------------------ *)
(** *** [read] and an error recorded while it polls *)

(** One poll of [read] that finds the read neither complete, nor timed out,
    nor in error starts a timer of 100 ms and polls again. *)
Lemma checkCompletion_poll (k : nat) (time : Z) (s : System) :
  readComplete (self s) = false ->
  now (world s) - time <= timeout (self s) ->
  errorSet (lastError (self s)) = false ->
  checkCompletion (S k) time s = checkCompletion k time (setTimeout 100 s).
Proof.
  intros Hrc Hearly Herr. cbn [checkCompletion]. rewrite Hrc, Herr.
  destruct (Z.gtb_spec (now (world s) - time) (timeout (self s))); [lia | reflexivity].
Qed.

(** A timer during which the transport emits one error that does not close
    it: the message is recorded, whatever it is. *)
Lemma setTimeout_one_error (ms : Z) (s : System) (message : string) (late : nat) :
  ticks (world s) = [mkTick [ErrorEvent message false] late] ->
  lastError (self (setTimeout ms s)) = Some message
  /\ readComplete (self (setTimeout ms s)) = readComplete (self s)
  /\ timeout (self (setTimeout ms s)) = timeout (self s)
  /\ path (self (setTimeout ms s)) = path (self s)
  /\ ticks (world (setTimeout ms s)) = []
  /\ now (world (setTimeout ms s)) = now (world s) + Z.max 0 ms + Z.of_nat late.
Proof.
  intros Hticks. unfold setTimeout. rewrite Hticks.
  cbn [events lateness fold_left tl deliver self world withSelf].
  destruct s as [p w].
  destruct p as [[[[] pp b] |] rm rc bf bb nm st ty le tmo lnd pa];
    unfold receiveError, portIsOpen, close; cbn;
    try (destruct (nextResponse (closeResponses w)); cbn); repeat split.
Qed.

(** With nothing arriving, a read that is not complete and whose recorded
    error, if any, has an empty message polls until the timeout has elapsed
    and is rejected with the timeout error. *)
Lemma checkCompletion_unanswered (polls : nat) (time : Z) :
  forall s : System,
    ticks (world s) = [] ->
    readComplete (self s) = false ->
    errorSet (lastError (self s)) = false ->
    timeout (self s) < 100 * Z.of_nat polls + (now (world s) - time) ->
    fst (checkCompletion polls time s) = Rejected (timeoutMessage (self s))
    /\ self (snd (checkCompletion polls time s)) = self s.
Proof.
  induction polls as [| k IH]; intros s Hq Hrc Herr Hlate; cbn [checkCompletion];
    rewrite Hrc, Herr.
  - destruct (Z.gtb_spec (now (world s) - time) (timeout (self s))); [| lia].
    repeat split.
  - destruct (Z.gtb_spec (now (world s) - time) (timeout (self s))).
    + repeat split.
    + destruct (setTimeout_quiet 100 s Hq) as (Hself & Hticks & Hnow & _).
      destruct (IH (setTimeout 100 s)) as (H1 & H2).
      * exact Hticks.
      * rewrite Hself. exact Hrc.
      * rewrite Hself. exact Herr.
      * rewrite Hself, Hnow. lia.
      * rewrite H1, H2, Hself. repeat split.
Qed.

(** C7, at the failing input. The transport emits one error, which does not
    close it, during the first timer of [read(m)], and nothing else arrives.
    The error is recorded after the read began, whatever the port held
    before.  When its message is not empty and the timeout has not elapsed,
    the read is rejected with it, as the claim says.  When its message is
    empty, [lastError] is no longer [null] but the read is not rejected with
    it: the read goes on polling and is rejected with the timeout error. *)
Theorem read_empty_error_times_out
    (m : RegExp) (s : System) (message : string) (late : nat) :
  0 <= timeout (self s) ->
  ticks (world s) = [mkTick [ErrorEvent message false] late] ->
  lastError (self (snd (read m s))) = Some message
  /\ (message <> EmptyString ->
      100 + Z.of_nat late <= timeout (self s) ->
      fst (read m s) = Rejected message)
  /\ (message = EmptyString ->
      fst (read m s) = Rejected (timeoutMessage (self s))
      /\ fst (read m s) <> Rejected message).
Proof.
  intros Htimeout Hticks. unfold read.
  set (p0 := setReadComplete false _).
  set (s0 := withSelf p0 s).
  assert (Hrc0 : readComplete (self s0) = false) by reflexivity.
  assert (Herr0 : errorSet (lastError (self s0)) = false) by reflexivity.
  assert (Ht0 : timeout (self s0) = timeout (self s)) by reflexivity.
  assert (Hp0 : path (self s0) = path (self s)) by reflexivity.
  assert (Hticks0 : ticks (world s0) = [mkTick [ErrorEvent message false] late])
    by exact Hticks.
  change (timeout p0) with (timeout (self s)).
  change (pollBudget (timeout (self s))) with (S (Z.to_nat (timeout (self s) / 100))).
  rewrite (checkCompletion_poll _ _ s0 Hrc0) by (rewrite ?Ht0; cbn; try lia; exact Herr0).
  destruct (setTimeout_one_error 100 s0 message late Hticks0)
    as (Herr1 & Hrc1 & Ht1 & Hp1 & Hq1 & Hnow1).
  set (s1 := setTimeout 100 s0) in *.
  set (k := Z.to_nat (timeout (self s) / 100)).
  assert (Hnow : now (world s1) - now (world s) = 100 + Z.of_nat late).
  { rewrite Hnow1. change (now (world s0)) with (now (world s)). lia. }
  assert (Hmsg : timeoutMessage (self s1) = timeoutMessage (self s)).
  { unfold timeoutMessage. rewrite Ht1, Hp1, Ht0, Hp0. reflexivity. }
  destruct (String.eqb_spec message EmptyString) as [Hempty | Hfull].
  - destruct (checkCompletion_unanswered k (now (world s)) s1 Hq1) as (Hout & Hself).
    + rewrite Hrc1. exact Hrc0.
    + rewrite Herr1, Hempty. reflexivity.
    + rewrite Ht1, Ht0, Hnow.
      pose proof (pollBudget_enough (timeout (self s))) as Hb.
      unfold pollBudget in Hb. fold k in Hb. rewrite Nat2Z.inj_succ in Hb. lia.
    + split; [rewrite Hself; exact Herr1 |].
      split; [intros Hne; contradiction |]. intros _.
      rewrite Hout, Hmsg. split; [reflexivity |]. rewrite Hempty. discriminate.
  - assert (Hset : errorSet (lastError (self s1)) = true).
    { rewrite Herr1. cbn [errorSet]. destruct (String.eqb_spec message "");
        [contradiction | reflexivity]. }
    assert (Hstep : forall polls,
              now (world s1) - now (world s) <= timeout (self s1) ->
              checkCompletion polls (now (world s)) s1 = (Rejected message, s1)).
    { intros polls Hearly. destruct polls; cbn [checkCompletion];
        rewrite Hrc1, Hrc0, Hset, Herr1;
        (destruct (Z.gtb_spec (now (world s1) - now (world s)) (timeout (self s1)));
         [lia | reflexivity]). }
    split.
    + destruct k as [| k']; cbn [checkCompletion]; rewrite Hrc1, Hrc0, Hset;
        destruct (now (world s1) - now (world s) >? timeout (self s1)); exact Herr1.
    + split; [| intros He; contradiction].
      intros _ Hearly. rewrite Hstep; [reflexivity |]. rewrite Ht1, Ht0, Hnow. exact Hearly.
Qed.

Lemma read_empty_error_times_out_witness :
  fst (read (occursIn "OK") (mkSystem busyPort emptyErrorWorld))
  = Rejected "Timeout after 5000ms while reading from port /dev/serialportMock."
  /\ lastError (self (snd (read (occursIn "OK") (mkSystem busyPort emptyErrorWorld))))
     = Some EmptyString
  /\ now (world (snd (read (occursIn "OK") (mkSystem busyPort emptyErrorWorld)))) = 5100.
Proof.
  destruct (read_empty_error_times_out (occursIn "OK") (mkSystem busyPort emptyErrorWorld)
              EmptyString 0) as (Herr & _ & Hempty).
  - cbn. lia.
  - reflexivity.
  - split; [exact (proj1 (Hempty eq_refl)) |]. split; [exact Herr |].
    vm_compute. reflexivity.
Defined.

(** The state in which the probe of [setType] starts to send, when the open
    succeeds and nothing arrives during the startup delay. *)
Lemma setType_ready (t : ComType) (s : System) :
  baud t <> 0 ->
  nextResponse (openResponses (world s)) = None ->
  ticks (world s) = [] ->
  exists w1,
    (connect (Some (baud t)) ;; sleep (startupDelay t)) s
    = (Resolved tt,
       mkSystem (setState background
                   (setPort (Some (mkSerialPort true (path (self s)) (baud t)))
                      (setPort (Some (mkSerialPort false (path (self s)) (baud t)))
                         (setState connecting (self s))))) w1)
    /\ ticks w1 = []
    /\ writeResponses w1 = writeResponses (world s)
    /\ closeResponses w1 = closeResponses (world s).
Proof.
  intros Hbaud Hopen Hq. unfold bind, connect, sleep.
  destruct (Z.eqb_spec (baud t) 0) as [| _]; [contradiction |].
  cbn [negb]. rewrite Hopen.
  match goal with |- context [setTimeout ?ms ?x] =>
    destruct (setTimeout_quiet ms x Hq) as (Hself & Hticks & _ & Hwr & Hcl);
    destruct (setTimeout ms x) as [p1 w1] end.
  cbn [self world] in *. subst p1. exists w1. repeat split; assumption.
Qed.

(** When the write of the first [init] macro fails and the close that
    follows does not, [setType] is rejected with the error of the write. *)
Lemma setType_write_failure (t : ComType) (s : System) (e : string)
    (m : ComMacro) (ms : list ComMacro) :
  baud t <> 0 ->
  nextResponse (openResponses (world s)) = None ->
  ticks (world s) = [] ->
  init t = m :: ms ->
  nextResponse (writeResponses (world s)) = Some e ->
  nextResponse (closeResponses (world s)) = None ->
  fst (setType t s) = Rejected e.
Proof.
  intros Hbaud Hopen Hq Hinit Hwrite Hclose.
  destruct (setType_ready t s Hbaud Hopen Hq) as (w1 & Hready & Hq1 & Hwr1 & Hcl1).
  unfold setType, tryFinally. unfold bind in *.
  destruct (connect (Some (baud t)) s) as [[[] | e0 |] s0]; try discriminate.
  rewrite Hready. unfold sendPlain. rewrite Hinit. cbn [executeMacros].
  unfold bind, lockPort, write. cbn. rewrite Hwr1, Hwrite.
  unfold close. cbn. rewrite Hcl1, Hclose. reflexivity.
Qed.

(** When nothing arrives, the read of the first [init] macro times out, and
    [setType] is rejected with the timeout error: it does not return
    [false]. *)
Lemma setType_timeout (t : ComType) (s : System)
    (m : ComMacro) (ms : list ComMacro) :
  baud t <> 0 ->
  nextResponse (openResponses (world s)) = None ->
  ticks (world s) = [] ->
  init t = m :: ms ->
  nextResponse (writeResponses (world s)) = None ->
  nextResponse (closeResponses (world s)) = None ->
  fst (setType t s) = Rejected (timeoutMessage (self s)).
Proof.
  intros Hbaud Hopen Hq Hinit Hwrite Hclose.
  destruct (setType_ready t s Hbaud Hopen Hq) as (w1 & Hready & Hq1 & Hwr1 & Hcl1).
  unfold setType, tryFinally. unfold bind in *.
  destruct (connect (Some (baud t)) s) as [[[] | e0 |] s0]; try discriminate.
  rewrite Hready. unfold sendPlain. rewrite Hinit. cbn [executeMacros].
  unfold bind, lockPort, write. cbn -[read close]. rewrite Hwr1, Hwrite.
  unfold read.
  match goal with |- context [checkCompletion ?n ?tm ?x] =>
    destruct (checkCompletion_quiet n tm x) as (Hout & Hself & Hcl2);
    [ unfold withSelf; cbn; exact Hq1 | reflexivity | reflexivity
    | pose proof (pollBudget_enough (timeout (self s)));
      unfold withSelf; cbn -[pollBudget Z.of_nat Z.mul Z.add Z.sub Z.lt]; lia |];
    destruct (checkCompletion n tm x) as [o2 s2] end.
  cbn [fst snd] in Hout, Hself, Hcl2. subst o2.
  unfold close. rewrite Hself. cbn. rewrite Hcl2. cbn. rewrite Hcl1, Hclose.
  reflexivity.
Qed.

(** A failure of the probe is thrown again by [setType] once the close of
    the [finally] part has succeeded. *)
Lemma setType_rethrows (t : ComType) (s s1 : System) (e : string) :
  (connect (Some (baud t)) ;; sleep (startupDelay t) ;; sendPlain (Some (init t))) s
  = (Rejected e, s1) ->
  port (self s1) <> None ->
  nextResponse (closeResponses (world s1)) = None ->
  fst (setType t s) = Rejected e.
Proof.
  intros Hprobe Hport Hclose. unfold setType, tryFinally. unfold bind in *.
  destruct (connect (Some (baud t)) s) as [[[] | e0 |] s0].
  - destruct (sleep (startupDelay t) s0) as [[[] | e1 |] s2].
    + destruct (sendPlain (Some (init t)) s2) as [[rs | e2 |] s3]; try discriminate.
      injection Hprobe as <- <-. unfold close.
      destruct (port (self s3)); [| contradiction].
      cbn. rewrite Hclose. reflexivity.
    + injection Hprobe as <- <-. unfold close.
      destruct (port (self s2)); [| contradiction].
      cbn. rewrite Hclose. reflexivity.
    + discriminate.
  - injection Hprobe as <- <-. unfold close.
    destruct (port (self s0)); [| contradiction].
    cbn. rewrite Hclose. reflexivity.
  - discriminate.
Qed.

(** C3, as amended. [setType] resolves only with [true], and only when every
    macro of [init] was answered by a matching response before its read
    timed out.  A failure of the probe (open, lock, write or read) is thrown
    again by [setType], provided the close that follows succeeds.  So, in a
    world where the open succeeds and nothing arrives, [setType] is rejected
    with the timeout error of the read (it does not return [false]), or with
    the error of the write when the write fails; and when the open fails it
    is rejected with the error of the open. *)
Theorem setType_outcomes (t : ComType) (s : System) :
  (forall b s',
      setType t s = (Resolved b, s') ->
      b = true /\ type (self s') = Some t
      /\ exists s1 responses,
           (connect (Some (baud t)) ;; sleep (startupDelay t) ;;
            sendPlain (Some (init t))) s = (Resolved responses, s1)
           /\ Forall2 (fun m r => response m r = true) (init t) responses)
  /\ (forall e s1,
        (connect (Some (baud t)) ;; sleep (startupDelay t) ;;
         sendPlain (Some (init t))) s = (Rejected e, s1) ->
        port (self s1) <> None ->
        nextResponse (closeResponses (world s1)) = None ->
        fst (setType t s) = Rejected e)
  /\ (forall m ms,
        baud t <> 0 ->
        nextResponse (openResponses (world s)) = None ->
        ticks (world s) = [] ->
        init t = m :: ms ->
        nextResponse (closeResponses (world s)) = None ->
        (nextResponse (writeResponses (world s)) = None ->
         fst (setType t s)
         = Rejected ("Timeout after " ++ numToString (timeout (self s))
                     ++ "ms while reading from port " ++ path (self s) ++ "."))
        /\ (forall e, nextResponse (writeResponses (world s)) = Some e ->
                      fst (setType t s) = Rejected e))
  /\ (forall e,
        baud t <> 0 ->
        nextResponse (openResponses (world s)) = Some e ->
        nextResponse (closeResponses (world s)) = None ->
        fst (setType t s) = Rejected e).
Proof.
  split; [| split; [| split]].
  - intros b s'. apply setType_resolved.
  - intros e s1. apply setType_rethrows.
  - intros m ms Hbaud Hopen Hq Hinit Hclose. split.
    + intros Hwrite. exact (setType_timeout t s m ms Hbaud Hopen Hq Hinit Hwrite Hclose).
    + intros e Hwrite.
      exact (setType_write_failure t s e m ms Hbaud Hopen Hq Hinit Hwrite Hclose).
  - intros e. apply setType_open_failure.
Qed.

Lemma setType_outcomes_witness :
  fst (setType mockType (mkSystem mockPort quietWorld))
  = Rejected "Timeout after 5000ms while reading from port /dev/serialportMock."
  /\ fst (setType mockType (mkSystem mockPort writeFailWorld)) = Rejected "Write failed"
  /\ fst (setType mockType (mkSystem mockPort openFailWorld))
     = Rejected "Failed to open port".
Proof.
  split; [| split].
  - destruct (setType_outcomes mockType (mkSystem mockPort quietWorld)) as (_ & _ & H & _).
    destruct (H (mkComMacro "INIT" (occursIn "INITTED")) []
                ltac:(discriminate) eq_refl eq_refl eq_refl eq_refl) as [Htimeout _].
    exact (Htimeout eq_refl).
  - destruct (setType_outcomes mockType (mkSystem mockPort writeFailWorld)) as (_ & _ & H & _).
    destruct (H (mkComMacro "INIT" (occursIn "INITTED")) []
                ltac:(discriminate) eq_refl eq_refl eq_refl eq_refl) as [_ Hwrite].
    exact (Hwrite "Write failed" eq_refl).
  - destruct (setType_outcomes mockType (mkSystem mockPort openFailWorld)) as (_ & _ & _ & H).
    exact (H "Failed to open port" ltac:(discriminate) eq_refl eq_refl).
Defined.

(** C3, as stated, fails: the device never answers, the read times out, and
    [setType] is rejected with the timeout error; it does not return
    [false]. *)
Lemma setType_timeout_counterexample :
  fst (setType mockType (mkSystem mockPort quietWorld))
  = Rejected "Timeout after 5000ms while reading from port /dev/serialportMock."
  /\ fst (setType mockType (mkSystem mockPort quietWorld)) <> Resolved false.
Proof.
  split; [vm_compute; reflexivity | vm_compute; discriminate].
Qed.


(* ================================================================== *)
(** ** [send]: the state after a failure *)

(** On an idle, open port, a write that fails leaves the port busy. *)
Lemma sendPlain_write_failure (m : ComMacro) (rest : list ComMacro)
    (s : System) (e : string) :
  state (self s) = background ->
  portIsOpen (self s) = true ->
  nextResponse (writeResponses (world s)) = Some e ->
  fst (sendPlain (Some (m :: rest)) s) = Rejected e
  /\ state (self (snd (sendPlain (Some (m :: rest)) s))) = busy.
Proof.
  intros Hst Hopen Hwrite. unfold sendPlain. cbn [executeMacros].
  unfold bind, lockPort. rewrite Hst. cbn [PortState_eqb].
  unfold write. cbn [self withSelf world].
  replace (portIsOpen (setState busy (self s))) with true by (symmetry; exact Hopen).
  cbn [negb]. rewrite Hwrite. split; reflexivity.
Qed.

(** On an idle, open port, a read during which nothing arrives times out and
    leaves the port busy. *)
Lemma sendPlain_read_timeout (m : ComMacro) (rest : list ComMacro) (s : System) :
  state (self s) = background ->
  portIsOpen (self s) = true ->
  nextResponse (writeResponses (world s)) = None ->
  ticks (world s) = [] ->
  fst (sendPlain (Some (m :: rest)) s) = Rejected (timeoutMessage (self s))
  /\ state (self (snd (sendPlain (Some (m :: rest)) s))) = busy.
Proof.
  intros Hst Hopen Hwrite Hq. unfold sendPlain. cbn [executeMacros].
  unfold bind, lockPort. rewrite Hst. cbn [PortState_eqb].
  unfold write. cbn [self withSelf world].
  replace (portIsOpen (setState busy (self s))) with true by (symmetry; exact Hopen).
  cbn [negb]. rewrite Hwrite. unfold read.
  match goal with |- context [checkCompletion ?n ?tm ?x] =>
    destruct (checkCompletion_quiet n tm x) as (Hout & Hself & _);
    [ unfold withSelf; cbn; exact Hq | reflexivity | reflexivity
    | pose proof (pollBudget_enough (timeout (self s)));
      unfold withSelf; cbn -[pollBudget Z.of_nat Z.mul Z.add Z.sub Z.lt]; lia |];
    destruct (checkCompletion n tm x) as [o2 s2] end.
  cbn [fst snd] in Hout, Hself. subst o2. cbn. cbn in Hself. rewrite Hself.
  split; reflexivity.
Qed.

(** The loop of the compiled build, for comparison: whenever it is
    rejected, the state it leaves is [background]. *)
Lemma executeMacrosBuild_failure (lock : Async unit) (macros : list ComMacro) :
  forall responses s e s',
    executeMacrosBuild lock macros responses s = (Rejected e, s') ->
    state (self s') = background.
Proof.
  induction macros as [| m rest IH]; intros rs s e s' Hrun;
    cbn [executeMacrosBuild] in Hrun.
  - discriminate.
  - unfold bind at 1 in Hrun. unfold catchToBackground at 1 in Hrun.
    destruct (lock s) as [[[] | e1 |] s1].
    + unfold bind at 1 in Hrun. unfold catchToBackground at 1 in Hrun.
      destruct ((write (command m) ;; read (response m)) s1) as [[r | e2 |] s2].
      * exact (IH _ _ _ _ Hrun).
      * injection Hrun as _ <-. reflexivity.
      * discriminate.
    + injection Hrun as _ <-. reflexivity.
    + discriminate.
Qed.

(** C1, at the failing inputs: on a connected, idle port, [send] is rejected
    with the timeout error of the read when the device does not answer, and
    with the error of the write when the write fails; on a port that
    stays busy it is rejected with the lock timeout.  The error reaches the
    caller, and each time the state left behind is [busy], not
    [background] as the comments of [ComPort] say and as the loop of the
    compiled build leaves it. *)
Theorem send_failure_leaves_busy :
  option_map (fun r => (fst r, state (self (snd r))))
    (send (inl [helpMacro]) VUndefined
       (mkSystem (withTimeout 500 connectedPort) quietWorld))
  = Some (Rejected "Timeout after 500ms while reading from port /dev/serialportMock.",
          busy)
  /\ option_map (fun r => (fst r, state (self (snd r))))
       (send (inl [helpMacro]) VUndefined (mkSystem connectedPort writeFailWorld))
     = Some (Rejected "Write failed", busy)
  /\ option_map (fun r => (fst r, state (self (snd r))))
       (send (inl [helpMacro]) VUndefined (mkSystem busyPort quietWorld))
     = Some (Rejected "Timeout while waiting for port to become available.", busy).
Proof.
  repeat split; vm_compute; reflexivity.
Qed.

(* ================================================================== *)
(** ** Parameter substitution *)

Lemma append_nil_r (s : string) : s ++ "" = s.
Proof. induction s as [| c s IH]; cbn; [reflexivity | rewrite IH; reflexivity]. Qed.

Lemma append_assoc (a b c : string) : (a ++ b) ++ c = a ++ (b ++ c).
Proof. induction a as [| x a IH]; cbn; [reflexivity | rewrite IH; reflexivity]. Qed.

Lemma length_append (a b : string) :
  String.length (a ++ b) = (String.length a + String.length b)%nat.
Proof. induction a as [| x a IH]; cbn; [reflexivity | rewrite IH; reflexivity]. Qed.

(** A word character is none of the characters the pattern language or the
    token syntax gives a meaning to. *)
Lemma wordChar_plain (c : ascii) :
  isWordChar c = true ->
  (c =? "[")%char = false /\ (c =? ".")%char = false /\ isOperator c = false
  /\ (c =? "{")%char = false /\ (c =? "}")%char = false.
Proof.
  destruct c as [[] [] [] [] [] [] [] []]; cbn; intros H;
    try discriminate H; repeat split.
Qed.

Lemma allWordChars_excludes (c : ascii) (t : string) :
  isWordChar c = false -> allWordChars t = true -> includes c t = false.
Proof.
  intros Hc. induction t as [| d t IH]; cbn; [reflexivity |].
  intros H. apply andb_true_iff in H as [Hd Ht].
  rewrite (IH Ht). destruct (Ascii.eqb_spec d c) as [-> | _]; [congruence | reflexivity].
Qed.

Lemma commandParamsFrom_outside (pre r : string) :
  includes "{" pre = false ->
  commandParamsFrom None (pre ++ r) = commandParamsFrom None r.
Proof.
  induction pre as [| c pre IH]; cbn; [reflexivity |].
  intros H. apply orb_false_iff in H as [Hc Hpre]. rewrite Hc. exact (IH Hpre).
Qed.

Lemma commandParamsFrom_inside (t : string) :
  forall g r,
    includes "}" t = false ->
    commandParamsFrom (Some g) (t ++ String "}" r)
    = match g ++ t with
      | EmptyString => commandParamsFrom None r
      | _ => (g ++ t) :: commandParamsFrom None r
      end.
Proof.
  induction t as [| c t IH]; intros g r; cbn [append includes commandParamsFrom].
  - intros _. cbn. rewrite append_nil_r. reflexivity.
  - intros H. apply orb_false_iff in H as [Hc Ht]. rewrite Hc.
    rewrite (IH _ _ Ht). rewrite append_assoc. reflexivity.
Qed.

Lemma commandParams_one_token (pre t post : string) :
  includes "{" pre = false -> includes "{" post = false ->
  includes "}" t = false -> t <> EmptyString ->
  commandParams (pre ++ String "{" (t ++ String "}" post)) = [t].
Proof.
  intros Hpre Hpost Ht Hne. unfold commandParams.
  rewrite (commandParamsFrom_outside _ _ Hpre). cbn [commandParamsFrom].
  cbn. rewrite (commandParamsFrom_inside _ _ _ Ht). cbn [append].
  rewrite <- (append_nil_r post), (commandParamsFrom_outside _ _ Hpost).
  destruct t; [contradiction | reflexivity].
Qed.

Lemma parsePattern_word (t : string) (rest : string) (re : TokenPattern) :
  allWordChars t = true ->
  parsePattern None rest = Some re ->
  parsePattern None (t ++ rest) = Some (literal t ++ re)%list.
Proof.
  intros Ht Hrest. induction t as [| c t IH]; cbn [append literal]; [exact Hrest |].
  cbn in Ht. apply andb_true_iff in Ht as [Hc Ht].
  destruct (wordChar_plain c Hc) as (H1 & H2 & H3 & H4 & _).
  cbn [parsePattern]. rewrite H1, H2, H3, H4. cbn [andb].
  rewrite (IH Ht). reflexivity.
Qed.

(** The pattern built from a plain name matches the token and nothing
    else. *)
Lemma compileRegExp_name (t : string) :
  isName t = true ->
  compileRegExp ("{" ++ t ++ "}") = Some (AChar "{" :: literal t ++ [AChar "}"])%list.
Proof.
  intros Hname. destruct t as [| c t]; [discriminate |].
  cbn [isName] in Hname. apply andb_true_iff in Hname as [Hdigit Hword].
  apply negb_true_iff in Hdigit.
  change ("{" ++ String c t ++ "}") with (String "{" (String c t ++ "}")).
  cbn [compileRegExp]. cbn [parsePattern]. cbn [Ascii.eqb Bool.eqb isOperator orb].
  replace (bracedQuantifier (String c t ++ "}")) with false
    by (cbn; rewrite Hdigit; reflexivity).
  cbn [andb].
  rewrite (parsePattern_word (String c t) "}" [AChar "}"] Hword eq_refl).
  reflexivity.
Qed.

Lemma matchesAt_literal (t r : string) (re : TokenPattern) :
  matchesAt (literal t ++ re)%list (t ++ r) = matchesAt re r.
Proof.
  induction t as [| c t IH]; cbn; [reflexivity |].
  rewrite Ascii.eqb_refl. exact IH.
Qed.

Lemma length_literal (t : string) : List.length (literal t) = String.length t.
Proof. induction t as [| c t IH]; cbn; [reflexivity | rewrite IH; reflexivity]. Qed.

Section ReplaceToken.

Variable re : TokenPattern.
Variable replacement : string.

Lemma replaceFrom_outside (pre : string) :
  forall before r,
    includes "{" pre = false ->
    replaceFrom (AChar "{" :: re) replacement before O (pre ++ r)
    = pre ++ replaceFrom (AChar "{" :: re) replacement (before ++ pre) O r.
Proof.
  induction pre as [| c pre IH]; intros before r; cbn [append includes].
  - intros _. rewrite append_nil_r. reflexivity.
  - intros H. apply orb_false_iff in H as [Hc Hpre].
    cbn [replaceFrom matchesAt atomMatches].
    rewrite Ascii.eqb_sym, Hc. cbn [andb].
    rewrite (IH _ _ Hpre), append_assoc. reflexivity.
Qed.

Lemma replaceFrom_skip (x : string) :
  forall before r,
    replaceFrom re replacement before (String.length x) (x ++ r)
    = replaceFrom re replacement (before ++ x) O r.
Proof.
  induction x as [| c x IH]; intros before r; cbn [append String.length].
  - rewrite append_nil_r. destruct r; reflexivity.
  - cbn [replaceFrom]. rewrite IH, append_assoc. reflexivity.
Qed.

End ReplaceToken.

(** Replacing the token [{t}] by a text without [$] in a command that has no
    other opening brace. *)
Lemma replaceAll_token (pre t post : string) :
  includes "{" pre = false -> includes "{" post = false ->
  replaceAll (AChar "{" :: literal t ++ [AChar "}"])%list "undefined"
    (pre ++ String "{" (t ++ String "}" post))
  = pre ++ "undefined" ++ post.
Proof.
  intros Hpre Hpost. unfold replaceAll.
  rewrite (replaceFrom_outside _ _ _ _ _ Hpre). f_equal.
  cbn [replaceFrom].
  replace (matchesAt (AChar "{" :: literal t ++ [AChar "}"])%list
             (String "{" (t ++ String "}" post))) with true.
  2:{ cbn [matchesAt atomMatches]. rewrite Ascii.eqb_refl. cbn [andb].
      rewrite matchesAt_literal. cbn. reflexivity. }
  change (expandReplacement "undefined" ?m ?b ?a) with "undefined".
  cbn [List.length]. rewrite length_app, length_literal. cbn [List.length].
  replace (S (String.length t + 1) - 1)%nat with (String.length (t ++ "}"))
    by (rewrite length_append; cbn; lia).
  replace (t ++ String "}" post) with ((t ++ "}") ++ post)
    by (rewrite append_assoc; reflexivity).
  rewrite replaceFrom_skip.
  rewrite <- (append_nil_r post) at 1.
  rewrite (replaceFrom_outside _ _ _ _ _ Hpost). cbn. rewrite append_nil_r.
  reflexivity.
Qed.

Lemma isName_wordChars (t : string) :
  isName t = true -> allWordChars t = true /\ t <> EmptyString.
Proof.
  destruct t as [| c t]; [discriminate |]. cbn [isName].
  intros H. apply andb_true_iff in H as [_ H]. split; [exact H | discriminate].
Qed.

Lemma topName_plain (t : string) : includes "." t = false -> topName t = t.
Proof. intros H. unfold topName. rewrite H. reflexivity. Qed.

(** A name that is an own property of [params] is not read through the
    prototype chain, and neither is a name that no object inherits. *)
Lemma inheritedProp_own (fields : list (string * value)) (t : string) (v : value) :
  lookupField t fields = Some v -> inheritedProp (VObj fields) t = false.
Proof. intros H. unfold inheritedProp. cbn [hasOwnProperty]. rewrite H. reflexivity. Qed.

Lemma inheritedProp_missing (fields : list (string * value)) (t : string) :
  inheritedName t = false -> inheritedProp (VObj fields) t = false.
Proof. intros H. unfold inheritedProp. rewrite H. apply andb_false_r. Qed.

(** C5, as amended. [t] is a plain name for which the [params] object holds
    no value and which is not one of the names that every object inherits
    from [Object.prototype].  In any command, the turn of [t] replaces the
    matches of its token [{t}] by the text [undefined].  So in a command
    whose only opening brace is that of the token, the resolved command has
    [undefined] in the place of the token: the token does not stay. *)
Theorem missing_param_becomes_undefined
    (fields : list (string * value)) (pre t post : string) :
  isName t = true ->
  inheritedName t = false ->
  lookupField t fields = None ->
  (forall cmd,
      replaceParam (VObj fields) (Some cmd) t
      = Some (replaceAll (AChar "{" :: literal t ++ [AChar "}"])%list "undefined" cmd))
  /\ (includes "{" pre = false ->
      includes "{" post = false ->
      substituteCommand (VObj fields) (pre ++ "{" ++ t ++ "}" ++ post)
      = Some (pre ++ "undefined" ++ post)).
Proof.
  intros Hname Hown Hmissing.
  destruct (isName_wordChars t Hname) as [Hword Hne].
  assert (Hclose : includes "}" t = false)
    by (apply allWordChars_excludes; [reflexivity | exact Hword]).
  assert (Hdot : includes "." t = false)
    by (apply allWordChars_excludes; [reflexivity | exact Hword]).
  assert (Hturn : forall cmd,
            replaceParam (VObj fields) (Some cmd) t
            = Some (replaceAll (AChar "{" :: literal t ++ [AChar "}"])%list
                      "undefined" cmd)).
  { intros cmd. cbn [replaceParam].
    rewrite (topName_plain t Hdot), (inheritedProp_missing fields t Hown).
    rewrite (compileRegExp_name t Hname).
    unfold resolveParam. rewrite Hdot. cbn [getProp]. rewrite Hmissing.
    reflexivity. }
  split; [exact Hturn |]. intros Hpre Hpost.
  unfold substituteCommand.
  change (pre ++ "{" ++ t ++ "}" ++ post) with (pre ++ String "{" (t ++ String "}" post)).
  rewrite (commandParams_one_token pre t post Hpre Hpost Hclose Hne).
  cbn [fold_left]. rewrite Hturn.
  rewrite (replaceAll_token pre t post Hpre Hpost). reflexivity.
Qed.

Lemma missing_param_becomes_undefined_witness :
  substituteCommand (VObj [("speed", VNum 5)]) "MOVE {axis} NOW"
  = Some "MOVE undefined NOW".
Proof.
  apply (proj2 (missing_param_becomes_undefined [("speed", VNum 5)] "MOVE " "axis" " NOW"
                  eq_refl eq_refl eq_refl));
    reflexivity.
Defined.

(** C5, as stated, fails: [params] holds no value for [speed], no object
    inherits a property of that name, and the token [{speed}] does not stay
    in the command: what is written to the port is [SET undefined]. *)
Lemma missing_param_counterexample :
  lookupField "speed" [] = None
  /\ substituteCommand (VObj []) "SET {speed}" = Some "SET undefined"
  /\ substituteCommand (VObj []) "SET {speed}" <> Some "SET {speed}"
  /\ option_map (fun r => written (world (snd r)))
       (send (inl [mkComMacro "SET {speed}" (occursIn "OK")]) (VObj [])
          (mkSystem connectedPort quietWorld))
     = Some [String.append "SET undefined" (String LF EmptyString)].
Proof.
  repeat split; try (vm_compute; reflexivity). vm_compute. discriminate.
Qed.

(** C6, at its input. The value found for the token is ["X"], but the
    pattern built from the token, in which [.] and [[0]] are operators, does
    not match the token itself: the command is left as it was, and
    [GOTO {user.addresses[0].city}] is what is written to the port. *)
Theorem goto_city_not_substituted :
  commandParams "GOTO {user.addresses[0].city}" = ["user.addresses[0].city"]
  /\ resolveParam cityParams "user.addresses[0].city" = VStr "X"
  /\ option_map (fun re => matchesAt re "{user.addresses[0].city}")
       (compileRegExp "{user.addresses[0].city}") = Some false
  /\ substituteCommand cityParams "GOTO {user.addresses[0].city}"
     = Some "GOTO {user.addresses[0].city}"
  /\ option_map (fun r => written (world (snd r)))
       (send (inl [gotoMacro]) cityParams (mkSystem connectedPort quietWorld))
     = Some [String.append "GOTO {user.addresses[0].city}" (String LF EmptyString)].
Proof.
  repeat split; vm_compute; reflexivity.
Qed.

(* ================================================================== *)
(** ** The background log *)

Lemma splitLinesFrom_not_nil (s cur : string) : splitLinesFrom cur s <> [].
Proof.
  revert cur. induction s as [| c s IH]; intros cur; cbn [splitLinesFrom].
  - discriminate.
  - destruct (c =? LF)%char; [discriminate |].
    destruct (c =? CR)%char; [| apply IH].
    destruct s as [| c' s']; [apply IH |].
    destruct (c' =? LF)%char; [discriminate | apply IH].
Qed.

Lemma appendToLast_joinFirst (log : list string) (first : string) :
  log <> [] ->
  appendToLast log first = push (removelast log) (last log EmptyString ++ first).
Proof.
  induction log as [| y log IH]; intros Hne; [contradiction |].
  destruct log as [| z log'].
  - reflexivity.
  - change (appendToLast (y :: z :: log') first)
      with (y :: appendToLast (z :: log') first).
    rewrite IH by discriminate. reflexivity.
Qed.

Lemma pushNotBlank_filter (rest : list string) :
  forall b,
    fold_left (fun b line => if (0 <? String.length (trim line))%nat
                             then push b line else b) rest b
    = (b ++ filter notBlank rest)%list.
Proof.
  induction rest as [| l rest IH]; intros b; cbn [fold_left filter].
  - rewrite app_nil_r. reflexivity.
  - rewrite IH. unfold notBlank at 2.
    destruct (0 <? String.length (trim l))%nat; [| reflexivity].
    unfold push. rewrite <- app_assoc. reflexivity.
Qed.

(** The loop of [receiveData] builds the log described by [appendedLog]. *)
Lemma logLines_appendedLog (dataStr : string) (log : list string) :
  logLines dataStr log = appendedLog dataStr log.
Proof.
  unfold logLines, appendedLog, endsWithTerminator.
  pose proof (splitLinesFrom_not_nil dataStr EmptyString) as Hne.
  fold (splitLines dataStr) in Hne.
  destruct (splitLines dataStr) as [| first rest]; [contradiction |].
  cbn [hd tl]. rewrite pushNotBlank_filter.
  assert (Hjoin : match log with
                  | [] => push log first
                  | _ :: _ => appendToLast log first
                  end = joinFirst log first).
  { destruct log as [| y log']; [reflexivity |].
    unfold joinFirst. apply appendToLast_joinFirst. discriminate. }
  rewrite Hjoin.
  destruct (endsWith LF dataStr || endsWith CR dataStr).
  - unfold push. rewrite <- app_assoc. reflexivity.
  - rewrite app_nil_r. reflexivity.
Qed.

Lemma limitLog_small (log : list string) :
  (List.length log <= 1000)%nat -> limitLog log = log.
Proof.
  intros H. unfold limitLog.
  destruct (Nat.ltb_spec 1000 (List.length log)); [lia | reflexivity].
Qed.






(* ================================================================== *)
(** ** When [setType] settles

    [setType] settles whenever a baud rate is given and no error closes the
    transport while it runs: the handle made by [connect] is still there
    when the [finally] part closes it. *)

Lemma receiveData_attached (d : string) (p : ComPort) :
  attached p -> attached (receiveData d p).
Proof.
  intros [Hopen Hst]. unfold receiveData, attached, portIsOpen in *.
  destruct Hst as [Hst | Hst]; rewrite Hst.
  - cbn. split; [exact Hopen | left; exact Hst].
  - destruct (readMatch p) as [re |].
    + cbn zeta. destruct (re _); cbn; (split; [exact Hopen |]);
        [left; reflexivity | right; exact Hst].
    + cbn. split; [exact Hopen | left; reflexivity].
Qed.

Lemma deliver_attached (s : System) (e : Event) :
  attached (self s) -> closingEvent e = false ->
  attached (self (deliver s e)) /\ world (deliver s e) = world s.
Proof.
  intros Hatt Hcalm. destruct e as [chunk | message closesPort]; cbn [deliver].
  - split; [apply receiveData_attached; exact Hatt | reflexivity].
  - cbn in Hcalm. subst closesPort.
    assert (Hsame : match port (self s) with Some _ => self s | None => self s end = self s)
      by (destruct (port (self s)); reflexivity).
    rewrite Hsame. destruct Hatt as [Hopen Hst].
    unfold receiveError. cbn [self withSelf].
    replace (portIsOpen (setLastError (Some message) (self s))) with true
      by (symmetry; exact Hopen).
    split; [| reflexivity]. split; [exact Hopen | left; reflexivity].
Qed.

Lemma deliverAll_attached (es : list Event) :
  forall s,
    attached (self s) -> forallb (fun e => negb (closingEvent e)) es = true ->
    attached (self (fold_left deliver es s))
    /\ world (fold_left deliver es s) = world s.
Proof.
  induction es as [| e es IH]; intros s Hatt Hcalm; cbn [fold_left].
  - split; [exact Hatt | reflexivity].
  - cbn in Hcalm. apply andb_true_iff in Hcalm as [He Hes].
    apply negb_true_iff in He.
    destruct (deliver_attached s e Hatt He) as [Hatt' Hw].
    destruct (IH (deliver s e) Hatt' Hes) as [Hatt'' Hw'].
    split; [exact Hatt'' | congruence].
Qed.

Lemma setTimeout_steady (ms : Z) (s : System) :
  steady s -> steady (setTimeout ms s).
Proof.
  intros [Hatt Hcalm]. unfold setTimeout, steady, calm in *.
  destruct (ticks (world s)) as [| t ts] eqn:Hticks.
  - cbn. split; [exact Hatt | reflexivity].
  - cbn in Hcalm. apply andb_true_iff in Hcalm as [Ht Hts].
    match goal with |- context [fold_left deliver ?es ?x] =>
      destruct (deliverAll_attached es x Hatt Ht) as [Hatt' Hw] end.
    rewrite Hw. cbn. split; [exact Hatt' | exact Hts].
Qed.

Lemma waitWhile_steady (st : PortState) (ms : Z) (attempts : nat) :
  forall s, steady s -> steady (waitWhile st ms attempts s).
Proof.
  induction attempts as [| k IH]; intros s Hs; cbn [waitWhile]; [exact Hs |].
  destruct (PortState_eqb (state (self s)) st); [| exact Hs].
  apply IH. apply setTimeout_steady. exact Hs.
Qed.

Lemma steady_busy (s : System) :
  steady s -> steady (withSelf (setState busy (self s)) s).
Proof.
  intros [[Hopen _] Hcalm]. split; [| exact Hcalm].
  split; [exact Hopen | right; reflexivity].
Qed.

Lemma lockPort_safe (s : System) : steady s -> safe (lockPort s).
Proof.
  intros Hs. unfold lockPort.
  destruct (PortState_eqb (state (self s)) background) eqn:Hbg.
  - split; [discriminate | apply steady_busy; exact Hs].
  - assert (Hbusy : state (self s) = busy).
    { destruct Hs as [[_ [H | H]] _]; [rewrite H in Hbg; discriminate | exact H]. }
    unfold bind. rewrite Hbusy. cbn [PortState_eqb]. unfold resolve.
    set (s2 := waitWhile connecting 100 10 s).
    assert (Hs2 : steady s2) by (apply waitWhile_steady; exact Hs).
    destruct (PortState_eqb (state (self s2)) connecting).
    + split; [discriminate | exact Hs2].
    + set (s3 := waitWhile busy 500 10 s2).
      assert (Hs3 : steady s3) by (apply waitWhile_steady; exact Hs2).
      destruct (PortState_eqb (state (self s3)) busy).
      * split; [discriminate | exact Hs3].
      * split; [discriminate | apply steady_busy; exact Hs3].
Qed.

Lemma write_safe (cmd : string) (s : System) : steady s -> safe (write cmd s).
Proof.
  intros [[Hopen Hst] Hcalm]. unfold write. rewrite Hopen. cbn [negb].
  destruct (nextResponse (writeResponses (world s)));
    (split; [discriminate |]); (split; [split; assumption | exact Hcalm]).
Qed.

Lemma checkCompletion_steady (polls : nat) (time : Z) :
  forall s, steady s -> steady (snd (checkCompletion polls time s)).
Proof.
  induction polls as [| k IH]; intros s Hs; cbn [checkCompletion];
    destruct (readComplete (self s)); try exact Hs;
    destruct (now (world s) - time >? timeout (self s)); try exact Hs;
    destruct (errorSet (lastError (self s))); try exact Hs.
  apply IH. apply setTimeout_steady. exact Hs.
Qed.

Lemma read_safe (m : RegExp) (s : System) : steady s -> safe (read m s).
Proof.
  intros Hs. split.
  - pose proof (read_outcome m s) as H.
    destruct (read m s) as [[v | e |] s']; [discriminate | discriminate | contradiction].
  - unfold read. apply checkCompletion_steady.
    destruct Hs as [[Hopen Hst] Hcalm]. split; [split |]; assumption.
Qed.

Lemma bind_safe {A B} (m : Async A) (k : A -> Async B) (s : System) :
  safe (m s) -> (forall a s', steady s' -> safe (k a s')) -> safe (bind m k s).
Proof.
  intros [Hne Hs] Hk. unfold bind. destruct (m s) as [[a | e |] s'].
  - apply Hk. exact Hs.
  - split; [discriminate | exact Hs].
  - contradiction.
Qed.

Lemma executeMacros_safe (macros : list ComMacro) :
  forall responses s, steady s -> safe (executeMacros macros responses s).
Proof.
  induction macros as [| m rest IH]; intros rs s Hs; cbn [executeMacros].
  - split; [discriminate | exact Hs].
  - apply bind_safe; [apply lockPort_safe; exact Hs |]. intros _ s1 Hs1.
    apply bind_safe; [apply write_safe; exact Hs1 |]. intros _ s2 Hs2.
    apply bind_safe; [apply read_safe; exact Hs2 |]. intros r s3 Hs3.
    apply IH. exact Hs3.
Qed.

Lemma sendPlain_safe (macros : option (list ComMacro)) (s : System) :
  steady s -> safe (sendPlain macros s).
Proof.
  intros Hs. unfold sendPlain.
  destruct macros as [[| m ms] |]; try (split; [discriminate | exact Hs]).
  apply executeMacros_safe. exact Hs.
Qed.

Lemma close_with_handle_settles (s : System) :
  port (self s) <> None -> fst (close s) <> Pending.
Proof.
  intros H. unfold close. destruct (port (self s)); [| contradiction].
  cbn [isOpen negb]. destruct (nextResponse _); discriminate.
Qed.

Lemma steady_has_handle (s : System) : steady s -> port (self s) <> None.
Proof.
  intros [[Hopen _] _]. unfold portIsOpen in Hopen.
  destruct (port (self s)); [discriminate | discriminate].
Qed.

Lemma tryFinally_settles {A} (m : Async A) (f : Async unit) (s : System) :
  fst (m s) <> Pending -> fst (f (snd (m s))) <> Pending ->
  fst (tryFinally m f s) <> Pending.
Proof.
  unfold tryFinally. destruct (m s) as [[a | e |] s1]; cbn [fst snd];
    intros Hm Hf; try contradiction;
    destruct (f s1) as [[u | e' |] s2]; cbn [fst] in *; try discriminate;
    contradiction.
Qed.

(** [setType] settles when a baud rate is given and the world is calm. *)
Lemma setType_settles (t : ComType) (s : System) :
  baud t <> 0 -> calm (world s) = true -> fst (setType t s) <> Pending.
Proof.
  intros Hbaud Hcalm. unfold setType.
  set (body := connect (Some (baud t)) ;; _).
  assert (Hbody : fst (body s) <> Pending /\ port (self (snd (body s))) <> None).
  { destruct (body s) as [o s1] eqn:Hb. cbn [fst snd].
    unfold body in Hb. unfold bind at 1 in Hb. unfold connect in Hb.
    destruct (Z.eqb_spec (baud t) 0) as [| _]; [contradiction |]. cbn [negb] in Hb.
    destruct (nextResponse (openResponses (world s))) as [e |].
    - injection Hb as <- <-. cbn. split; discriminate.
    - match type of Hb with bind ?m ?k ?x = _ =>
        assert (Hsafe : safe (bind m k x)) end.
      { apply bind_safe.
        - split; [discriminate |]. apply setTimeout_steady.
          split; [split; [reflexivity | left; reflexivity] | exact Hcalm].
        - intros _ s2 Hs2. apply bind_safe; [apply sendPlain_safe; exact Hs2 |].
          intros _ s3 Hs3. destruct (readComplete (self s3)).
          + split; [discriminate |]. destruct Hs3 as [[Hopen Hst] Hc].
            split; [split |]; assumption.
          + split; [discriminate | exact Hs3]. }
      rewrite Hb in Hsafe. destruct Hsafe as [Hne Hs']. split; [exact Hne |].
      apply steady_has_handle. exact Hs'. }
  destruct Hbody as [Hne Hport].
  apply tryFinally_settles; [exact Hne |].
  apply close_with_handle_settles. exact Hport.
Qed.

(** C4. Once [setType] has completed, by returning or by throwing, whatever
    the outcome of the probe, the state of the connection is [closed] and it
    holds no transport handle; and [setType] does complete when a baud rate
    is given and no error closes the transport while it runs. *)
Theorem setType_leaves_closed (t : ComType) (s : System) :
  (forall o s',
      setType t s = (o, s') -> o <> Pending ->
      state (self s') = closed /\ port (self s') = None)
  /\ (baud t <> 0 -> calm (world s) = true -> fst (setType t s) <> Pending).
Proof.
  split.
  - intros o s'. apply setType_settled_closed.
  - apply setType_settles.
Qed.

(** The four outcomes named for [setType]: the probe matched, timed out, the
    write failed, the open failed. *)
Lemma setType_leaves_closed_witness :
  (fst (setType mockType (mkSystem mockPort respondingWorld)) = Resolved true
   /\ state (self (snd (setType mockType (mkSystem mockPort respondingWorld)))) = closed
   /\ port (self (snd (setType mockType (mkSystem mockPort respondingWorld)))) = None)
  /\ (state (self (snd (setType mockType (mkSystem mockPort quietWorld)))) = closed
      /\ port (self (snd (setType mockType (mkSystem mockPort quietWorld)))) = None)
  /\ (state (self (snd (setType mockType (mkSystem mockPort writeFailWorld)))) = closed
      /\ port (self (snd (setType mockType (mkSystem mockPort writeFailWorld)))) = None)
  /\ (state (self (snd (setType mockType (mkSystem mockPort openFailWorld)))) = closed
      /\ port (self (snd (setType mockType (mkSystem mockPort openFailWorld)))) = None).
Proof.
  assert (H : forall w,
             calm w = true ->
             state (self (snd (setType mockType (mkSystem mockPort w)))) = closed
             /\ port (self (snd (setType mockType (mkSystem mockPort w)))) = None).
  { intros w Hcalm.
    destruct (setType_leaves_closed mockType (mkSystem mockPort w)) as [Hclosed Hsettles].
    apply (Hclosed (fst (setType mockType (mkSystem mockPort w)))
             (snd (setType mockType (mkSystem mockPort w)))).
    - apply surjective_pairing.
    - apply Hsettles; [discriminate | exact Hcalm]. }
  split; [split; [vm_compute; reflexivity |] | split; [| split]];
    apply H; reflexivity.
Defined.

(* ================================================================== *)
(** * Further properties *)

(** ** [ComManager.getComPort] by name, and what it returns *)

Section GetComPortByName.

Variable m : ComManager.
Variable tn : string.

(** Whatever the selector, a port that [getComPort] returns is one of the
    ports of the manager and has the type asked for. *)
Theorem getComPort_returns_port_of_type (sel : Selector) (p : ComPort) :
  getComPort m tn sel = Returned (Some p) ->
  In p (ports m) /\ hasType tn p = true.
Proof.
  unfold getComPort. destruct sel as [index | n].
  - destruct (index >=? _); [discriminate |].
    unfold at_. destruct (index <? 0); [discriminate |].
    intros H. injection H as H. apply nth_error_In in H.
    apply filter_In in H. exact H.
  - destruct (find (hasName n) (filter (hasType tn) (ports m))) as [q |] eqn:Hfind;
      [| discriminate].
    intros H. injection H as <-. apply find_some in Hfind as [Hin _].
    apply filter_In in Hin. exact Hin.
Qed.

(** With a name, [getComPort] returns the first port of the type that has
    this name, and throws the not-found error, which gives the name and the
    type, exactly when no port of the type has it. *)
Theorem getComPort_by_name (n : string) :
  (forall p, getComPort m tn (ByName n) = Returned (Some p) ->
             hasName n p = true
             /\ exists before after,
                  filter (hasType tn) (ports m) = (before ++ p :: after)%list
                  /\ forall q, In q before -> hasName n q = false)
  /\ (getComPort m tn (ByName n)
      = Thrown ("Port with name " ++ n ++ " not found for type " ++ tn ++ ".")
      <-> forall q, In q (ports m) -> hasType tn q = true -> hasName n q = false)
  /\ getComPort m tn (ByName n) <> Returned None.
Proof.
  unfold getComPort. set (typePorts := filter (hasType tn) (ports m)).
  assert (Hfirst : forall l p, find (hasName n) l = Some p ->
            hasName n p = true
            /\ exists before after, l = (before ++ p :: after)%list
                 /\ forall q, In q before -> hasName n q = false).
  { induction l as [| x l IH]; intros p Hf; [discriminate |]. cbn in Hf.
    destruct (hasName n x) eqn:Hx.
    - injection Hf as <-. split; [exact Hx |]. exists [], l.
      split; [reflexivity | intros q []].
    - destruct (IH p Hf) as (Hp & before & after & -> & Hb). split; [exact Hp |].
      exists (x :: before), after. split; [reflexivity |].
      intros q [<- | Hq]; [exact Hx | exact (Hb q Hq)]. }
  split; [| split].
  - intros p. destruct (find (hasName n) typePorts) as [q |] eqn:Hfind; [| discriminate].
    intros H. injection H as <-. exact (Hfirst _ _ Hfind).
  - destruct (find (hasName n) typePorts) as [q |] eqn:Hfind.
    + split; [discriminate |]. intros Hnone. exfalso.
      apply find_some in Hfind as [Hin Hq]. apply filter_In in Hin as [Hin Hty].
      rewrite (Hnone q Hin Hty) in Hq. discriminate.
    + split; [| reflexivity]. intros _ q Hin Hty.
      apply (find_none _ _ Hfind). apply filter_In. split; assumption.
  - destruct (find (hasName n) typePorts); discriminate.
Qed.

End GetComPortByName.

Lemma getComPort_returns_port_of_type_witness :
  In (setTypeField (Some mockType) (newComPort "/dev/c")) (ports twoMockPorts)
  /\ hasType "mock" (setTypeField (Some mockType) (newComPort "/dev/c")) = true.
Proof.
  apply (getComPort_returns_port_of_type twoMockPorts "mock" (ByIndex 1)).
  reflexivity.
Defined.

(* ================================================================== *)
(** ** [connect], [close], [write], [receiveError] *)

Lemma connect_cases (baudArg : option Z) (s : System) :
  match connect baudArg s with
  | (Resolved _, s') =>
      state (self s') = background
      /\ exists b, port (self s') = Some (mkSerialPort true (path (self s)) b)
                   /\ (baudArg = Some b /\ b <> 0
                       \/ (baudArg = None \/ baudArg = Some 0)
                          /\ option_map baud (type (self s)) = Some b)
  | (Rejected e, s') =>
      (e = noBaudMessage /\ s' = s /\ type (self s) = None
       /\ (baudArg = None \/ baudArg = Some 0))
      \/ (nextResponse (openResponses (world s)) = Some e
          /\ state (self s') = closed /\ lastError (self s') = Some e
          /\ portIsOpen (self s') = false)
  | (Pending, _) => False
  end.
Proof.
  unfold connect.
  assert (Hcase : match baudArg with Some b => negb (b =? 0) | None => false end = true
                  /\ (exists b, baudArg = Some b /\ b <> 0)
                  \/ match baudArg with Some b => negb (b =? 0) | None => false end = false
                     /\ (baudArg = None \/ baudArg = Some 0)).
  { destruct baudArg as [b |]; [| right; split; [reflexivity | left; reflexivity]].
    destruct (Z.eqb_spec b 0) as [-> | Hb].
    - right. split; [reflexivity | right; reflexivity].
    - left. split; [reflexivity | exists b; split; [reflexivity | exact Hb]]. }
  destruct Hcase as [[-> (b & -> & Hb)] | [-> Hnone]].
  - destruct (nextResponse (openResponses (world s))) as [e |].
    + right. repeat split.
    + split; [reflexivity |]. exists b. split; [reflexivity |]. left. split; [reflexivity | exact Hb].
  - destruct (type (self s)) as [t |] eqn:Hty; cbn [option_map].
    + destruct (nextResponse (openResponses (world s))) as [e |].
      * right. repeat split.
      * split; [reflexivity |]. exists (baud t). split; [reflexivity |].
        right. split; [exact Hnone | reflexivity].
    + left. repeat split. exact Hnone.
Qed.

(** [connect] always settles.  When it resolves, the state is [background]
    and the port holds an open handle on its path, at the baud rate given
    or, when none is given, at that of its type.  When it rejects, either
    no baud rate could be found and nothing has changed, or the open failed:
    the state is [closed], the error is recorded and the handle is not
    open. *)
Theorem connect_outcome (baudArg : option Z) (s : System) :
  match connect baudArg s with
  | (Resolved _, s') =>
      state (self s') = background
      /\ exists b, port (self s') = Some (mkSerialPort true (path (self s)) b)
                   /\ (baudArg = Some b /\ b <> 0
                       \/ (baudArg = None \/ baudArg = Some 0)
                          /\ option_map baud (type (self s)) = Some b)
  | (Rejected e, s') =>
      (e = noBaudMessage /\ s' = s /\ type (self s) = None
       /\ (baudArg = None \/ baudArg = Some 0))
      \/ (nextResponse (openResponses (world s)) = Some e
          /\ state (self s') = closed /\ lastError (self s') = Some e
          /\ portIsOpen (self s') = false)
  | (Pending, _) => False
  end.
Proof. exact (connect_cases baudArg s). Qed.

(** With a handle, [close] settles: the handle is dropped and the state is
    [closed] whether or not the transport reports an error, and the error of
    the transport, when there is one, is what [close] rejects with.  The
    settings and the log of the port are untouched. *)
Theorem close_with_handle (s : System) (sp : SerialPort) :
  port (self s) = Some sp ->
  fst (close s)
  = match nextResponse (closeResponses (world s)) with
    | Some e => Rejected e
    | None => Resolved tt
    end
  /\ state (self (snd (close s))) = closed
  /\ port (self (snd (close s))) = None
  /\ backgroundBuffer (self (snd (close s))) = backgroundBuffer (self s)
  /\ lastError (self (snd (close s))) = lastError (self s)
  /\ type (self (snd (close s))) = type (self s).
Proof.
  intros H. unfold close. rewrite H. cbn [isOpen negb].
  destruct (nextResponse (closeResponses (world s))); repeat split.
Qed.

Lemma close_with_handle_witness :
  fst (close (mkSystem connectedPort quietWorld)) = Resolved tt
  /\ state (self (snd (close (mkSystem connectedPort quietWorld)))) = closed
  /\ port (self (snd (close (mkSystem connectedPort quietWorld)))) = None.
Proof.
  destruct (close_with_handle (mkSystem connectedPort quietWorld)
              (mkSerialPort true "/dev/serialportMock" 9600) eq_refl)
    as (H1 & H2 & H3 & _).
  exact (conj H1 (conj H2 H3)).
Defined.

(** [write] on a port whose handle is missing or not open is rejected and
    changes nothing: nothing reaches the transport.  On an open port the
    command followed by the line ending is handed to the transport, once,
    whatever the transport answers; when it answers with an error, [write]
    rejects with it and records it; the state of the port is not changed. *)
Theorem write_effect (cmd : string) (s : System) :
  (portIsOpen (self s) = false ->
   write cmd s = (Rejected portNotOpenMessage, s))
  /\ (portIsOpen (self s) = true ->
      written (world (snd (write cmd s)))
      = push (written (world s)) (cmd ++ lineEnding (self s))
      /\ state (self (snd (write cmd s))) = state (self s)
      /\ match nextResponse (writeResponses (world s)) with
         | Some e => fst (write cmd s) = Rejected e
                     /\ lastError (self (snd (write cmd s))) = Some e
         | None => fst (write cmd s) = Resolved tt
                   /\ self (snd (write cmd s)) = self s
         end).
Proof.
  unfold write. split; intros H; rewrite H; cbn [negb]; [reflexivity |].
  destruct (nextResponse (writeResponses (world s))); repeat split.
Qed.

Lemma write_effect_witness :
  write "HELP" (mkSystem mockPort quietWorld)
  = (Rejected portNotOpenMessage, mkSystem mockPort quietWorld)
  /\ written (world (snd (write "HELP" (mkSystem connectedPort quietWorld))))
     = ["HELP" ++ nl].
Proof.
  destruct (write_effect "HELP" (mkSystem mockPort quietWorld)) as [Hclosed _].
  destruct (write_effect "HELP" (mkSystem connectedPort quietWorld)) as [_ Hopen].
  split; [exact (Hclosed eq_refl) | exact (proj1 (Hopen eq_refl))].
Defined.

(** After [receiveError] the error is recorded and the port is never left
    [busy] or [connecting]: with an open handle the state is [background]
    and the handle is kept; otherwise the state is [closed] and the handle
    is dropped. *)
Theorem receiveError_state (message : string) (s : System) :
  lastError (self (receiveError message s)) = Some message
  /\ (portIsOpen (self s) = true ->
      state (self (receiveError message s)) = background
      /\ port (self (receiveError message s)) = port (self s))
  /\ (portIsOpen (self s) = false ->
      state (self (receiveError message s)) = closed
      /\ port (self (receiveError message s)) = None).
Proof.
  destruct s as [p w].
  destruct p as [[sp |] rm rc bf bb nm st ty le tmo lnd pa];
    unfold receiveError, portIsOpen, close; cbn.
  - destruct sp as [[] pp b]; cbn.
    + repeat split; intros; discriminate.
    + destruct (nextResponse (closeResponses w)); cbn; repeat split; intros; discriminate.
  - repeat split; intros; discriminate.
Qed.

Lemma receiveError_state_witness :
  state (self (receiveError "Port error" (mkSystem busyPort quietWorld))) = background
  /\ lastError (self (receiveError "Port error" (mkSystem busyPort quietWorld)))
     = Some "Port error".
Proof.
  destruct (receiveError_state "Port error" (mkSystem busyPort quietWorld))
    as (Herr & Hopen & _).
  split; [exact (proj1 (Hopen eq_refl)) | exact Herr].
Defined.

(* ================================================================== *)
(** ** [lockPort] *)

Lemma connect_settles (baudArg : option Z) (s : System) :
  fst (connect baudArg s) <> Pending.
Proof.
  pose proof (connect_cases baudArg s) as H.
  destruct (connect baudArg s) as [[[] | e |] s']; [discriminate | discriminate | contradiction].
Qed.

Lemma lockPort_cases (s : System) :
  fst (lockPort s) <> Pending
  /\ (forall s', lockPort s = (Resolved tt, s') -> state (self s') = busy)
  /\ (state (self s) = background ->
      lockPort s = (Resolved tt, withSelf (setState busy (self s)) s)).
Proof.
  unfold lockPort.
  destruct (PortState_eqb (state (self s)) background) eqn:Hbg.
  - split; [discriminate |]. split; [| reflexivity].
    intros s' H. injection H as <-. reflexivity.
  - assert (Hnot : state (self s) <> background)
      by (intros Heq; rewrite Heq in Hbg; discriminate).
    split; [| split; [| intros Heq; contradiction]].
    + unfold bind.
      destruct (PortState_eqb (state (self s)) closed).
      * pose proof (connect_settles None s) as Hc.
        destruct (connect None s) as [[[] | e |] s1]; cbn [fst] in *;
          [| discriminate | contradiction].
        destruct (PortState_eqb _ connecting); [discriminate |].
        destruct (PortState_eqb _ busy); discriminate.
      * unfold resolve.
        destruct (PortState_eqb _ connecting); [discriminate |].
        destruct (PortState_eqb _ busy); discriminate.
    + intros s'. unfold bind.
      destruct ((if PortState_eqb (state (self s)) closed then connect None
                 else resolve tt) s) as [[[] | e |] s1]; try discriminate.
      cbv zeta.
      match goal with |- context [PortState_eqb ?x connecting] =>
        destruct (PortState_eqb x connecting) end; [discriminate |].
      match goal with |- context [PortState_eqb ?x busy] =>
        destruct (PortState_eqb x busy) end; [discriminate |].
      intros H. pose proof (f_equal snd H) as Hs. cbn [snd] in Hs.
      rewrite <- Hs. reflexivity.
Qed.

(** [lockPort] always settles, and resolves only with the port in the
    [busy] state.  On a port in the [background] state it resolves at once:
    no timer is started and the transport is not used. *)
Theorem lockPort_acquires (s : System) :
  fst (lockPort s) <> Pending
  /\ (forall s', lockPort s = (Resolved tt, s') -> state (self s') = busy)
  /\ (state (self s) = background ->
      lockPort s = (Resolved tt, withSelf (setState busy (self s)) s)).
Proof. exact (lockPort_cases s). Qed.

Lemma lockPort_acquires_witness :
  lockPort (mkSystem connectedPort quietWorld)
  = (Resolved tt, mkSystem busyPort quietWorld).
Proof.
  exact (proj2 (proj2 (lockPort_acquires (mkSystem connectedPort quietWorld))) eq_refl).
Defined.

(** Waiting on a state that nothing changes: every attempt is used, and
    only the clock moves. *)
Lemma waitWhile_quiet (st : PortState) (ms : Z) (attempts : nat) :
  forall s,
    ticks (world s) = [] -> state (self s) = st ->
    self (waitWhile st ms attempts s) = self s
    /\ ticks (world (waitWhile st ms attempts s)) = []
    /\ now (world (waitWhile st ms attempts s))
       = now (world s) + Z.of_nat attempts * Z.max 0 ms
    /\ written (world (waitWhile st ms attempts s)) = written (world s)
    /\ writeResponses (world (waitWhile st ms attempts s)) = writeResponses (world s).
Proof.
  induction attempts as [| k IH]; intros s Hq Hst; cbn [waitWhile].
  - repeat split; [exact Hq | cbn [Z.of_nat]; lia].
  - rewrite Hst. replace (PortState_eqb st st) with true by (destruct st; reflexivity).
    assert (Hstep : self (setTimeout ms s) = self s
                    /\ ticks (world (setTimeout ms s)) = []
                    /\ now (world (setTimeout ms s)) = now (world s) + Z.max 0 ms
                    /\ written (world (setTimeout ms s)) = written (world s)
                    /\ writeResponses (world (setTimeout ms s)) = writeResponses (world s)).
    { unfold setTimeout. rewrite Hq. cbn. repeat split. lia. }
    destruct Hstep as (H1 & H2 & H3 & H4 & H5).
    destruct (IH (setTimeout ms s) H2) as (I1 & I2 & I3 & I4 & I5).
    + rewrite H1. exact Hst.
    + rewrite I1, I2, I3, I4, I5, H1, H3, H4, H5. repeat split.
      rewrite Nat2Z.inj_succ. generalize (Z.max 0 ms). intros M. lia.
Qed.

(** Waiting on a state the port is not in does nothing. *)
Lemma waitWhile_other (st : PortState) (ms : Z) (attempts : nat) (s : System) :
  PortState_eqb (state (self s)) st = false -> waitWhile st ms attempts s = s.
Proof.
  intros H. destruct attempts; cbn [waitWhile]; [reflexivity |]. rewrite H. reflexivity.
Qed.

Lemma lockPort_busy_rejects (s : System) :
  ticks (world s) = [] -> state (self s) = busy ->
  fst (lockPort s) = Rejected lockTimeoutMessage
  /\ self (snd (lockPort s)) = self s
  /\ now (world (snd (lockPort s))) = now (world s) + 5000
  /\ written (world (snd (lockPort s))) = written (world s).
Proof.
  intros Hq Hst. unfold lockPort, bind, resolve. rewrite Hst. cbn [PortState_eqb].
  rewrite (waitWhile_other connecting 100 10 s) by (rewrite Hst; reflexivity).
  rewrite Hst. cbn [PortState_eqb].
  destruct (waitWhile_quiet busy 500 10 s Hq Hst) as (H1 & H2 & H3 & H4 & _).
  rewrite H1, Hst. cbn [PortState_eqb fst snd].
  rewrite H1, H3, H4. repeat split.
Qed.

(** A port that stays [busy]: when nothing arrives, [lockPort] gives up
    after ten waits of 500 ms with the lock-timeout error; the port is as it
    was and nothing has been written. *)
Theorem lockPort_busy_timeout (s : System) :
  ticks (world s) = [] -> state (self s) = busy ->
  fst (lockPort s) = Rejected lockTimeoutMessage
  /\ self (snd (lockPort s)) = self s
  /\ now (world (snd (lockPort s))) = now (world s) + 5000
  /\ written (world (snd (lockPort s))) = written (world s).
Proof. exact (lockPort_busy_rejects s). Qed.

Lemma lockPort_busy_timeout_witness :
  fst (lockPort (mkSystem busyPort quietWorld)) = Rejected lockTimeoutMessage
  /\ now (world (snd (lockPort (mkSystem busyPort quietWorld)))) = 5000.
Proof.
  destruct (lockPort_busy_timeout (mkSystem busyPort quietWorld) eq_refl eq_refl)
    as (H1 & _ & H3 & _).
  split; [exact H1 | exact H3].
Defined.

(** On a [closed] port [lockPort] connects first, at the baud rate of the
    type of the port: when the open succeeds the lock is taken at once on
    the new handle; when the port has no type, or the open fails, the error
    of [connect] is what [lockPort] rejects with. *)
Theorem lockPort_closed_connects (s : System) :
  state (self s) = closed ->
  match type (self s), nextResponse (openResponses (world s)) with
  | None, _ => lockPort s = (Rejected noBaudMessage, s)
  | Some t, Some e =>
      fst (lockPort s) = Rejected e /\ state (self (snd (lockPort s))) = closed
  | Some t, None =>
      fst (lockPort s) = Resolved tt
      /\ state (self (snd (lockPort s))) = busy
      /\ port (self (snd (lockPort s))) = Some (mkSerialPort true (path (self s)) (baud t))
      /\ now (world (snd (lockPort s))) = now (world s)
  end.
Proof.
  intros Hst. unfold lockPort, bind, connect. rewrite Hst. cbn [PortState_eqb].
  destruct (type (self s)) as [t |]; cbn [option_map]; [| reflexivity].
  destruct (nextResponse (openResponses (world s))) as [e |]; [repeat split |].
  rewrite (waitWhile_other connecting) by reflexivity.
  cbn [self state setState PortState_eqb].
  rewrite (waitWhile_other busy) by reflexivity.
  cbn [self state setState PortState_eqb]. repeat split.
Qed.

Lemma lockPort_closed_connects_witness :
  fst (lockPort (mkSystem (setTypeField (Some mockType) mockPort) quietWorld)) = Resolved tt
  /\ state (self (snd (lockPort (mkSystem (setTypeField (Some mockType) mockPort)
                                   quietWorld)))) = busy.
Proof.
  pose proof (lockPort_closed_connects
                (mkSystem (setTypeField (Some mockType) mockPort) quietWorld) eq_refl)
    as H.
  cbn [type self setTypeField world openResponses quietWorld nextResponse] in H.
  destruct H as (H1 & H2 & _). split; [exact H1 | exact H2].
Defined.

(* ================================================================== *)
(** ** [receiveData]: a chunk delivered in two parts *)

Lemma splitLinesFrom_cur (s : string) :
  forall cur,
    splitLinesFrom cur s
    = (cur ++ hd EmptyString (splitLines s)) :: tl (splitLines s).
Proof.
  unfold splitLines.
  induction s as [| c s IH]; intros cur; cbn [splitLinesFrom append].
  - cbn. rewrite append_nil_r. reflexivity.
  - destruct (c =? LF)%char; [cbn; rewrite append_nil_r; reflexivity |].
    destruct (c =? CR)%char.
    + destruct s as [| c' s'].
      * rewrite (IH (cur ++ String c "")), (IH (String c "")). cbn [hd tl append].
        rewrite append_assoc. reflexivity.
      * destruct (c' =? LF)%char; [cbn; rewrite append_nil_r; reflexivity |].
        rewrite (IH (cur ++ String c "")), (IH (String c "")). cbn [hd tl append].
        rewrite append_assoc. reflexivity.
    + rewrite (IH (cur ++ String c "")), (IH (String c "")). cbn [hd tl append].
      rewrite append_assoc. reflexivity.
Qed.

(** A text without line feed that does not end with a carriage return only
    extends the line being read. *)
Lemma splitLinesFrom_partial (a b : string) :
  forall cur,
    includes LF a = false -> endsWith CR a = false ->
    splitLinesFrom cur (a ++ b) = splitLinesFrom (cur ++ a) b.
Proof.
  induction a as [| c a IH]; intros cur Hlf Hcr; cbn [append].
  - rewrite append_nil_r. reflexivity.
  - cbn [includes] in Hlf. apply orb_false_iff in Hlf as [Hc Hlf].
    assert (Hcr' : endsWith CR a = false) by (destruct a; [reflexivity | exact Hcr]).
    cbn [splitLinesFrom]. rewrite Hc.
    destruct (c =? CR)%char eqn:Hccr.
    + destruct a as [| c' a'].
      * cbn in Hcr. rewrite Hccr in Hcr. discriminate.
      * cbn [append]. cbn [includes] in Hlf.
        apply orb_false_iff in Hlf as Hlf2. destruct Hlf2 as [Hc' _]. rewrite Hc'.
        change (String c' (a' ++ b)) with (String c' a' ++ b).
        rewrite (IH (cur ++ String c "") Hlf Hcr').
        rewrite append_assoc. reflexivity.
    + rewrite (IH (cur ++ String c "") Hlf Hcr').
      rewrite append_assoc. reflexivity.
Qed.

Lemma endsWith_append (c : ascii) (a b : string) :
  b <> EmptyString -> endsWith c (a ++ b) = endsWith c b.
Proof.
  intros Hb. induction a as [| d a IH]; [reflexivity |].
  cbn [append]. change (endsWith c (String d (a ++ b)))
    with (match a ++ b with
          | EmptyString => (d =? c)%char
          | String _ _ => endsWith c (a ++ b)
          end).
  destruct (a ++ b) eqn:Hab; [| exact IH].
  destruct a; [cbn in Hab; contradiction | discriminate].
Qed.

Lemma includes_endsWith (c : ascii) (a : string) :
  includes c a = false -> endsWith c a = false.
Proof.
  induction a as [| d a IH]; [reflexivity |]. cbn [includes].
  intros H. apply orb_false_iff in H as [Hd Ha].
  destruct a; [exact Hd | exact (IH Ha)].
Qed.

Lemma joinFirst_joinFirst (log : list string) (a b : string) :
  joinFirst (joinFirst log a) b = joinFirst log (a ++ b).
Proof.
  destruct log as [| y log]; [reflexivity |].
  set (l := y :: log).
  change (joinFirst l a) with (push (removelast l) (last l EmptyString ++ a)).
  change (joinFirst l (a ++ b))
    with (push (removelast l) (last l EmptyString ++ (a ++ b))).
  unfold joinFirst.
  destruct (push (removelast l) (last l EmptyString ++ a)) eqn:Hl.
  - unfold push in Hl. apply app_eq_nil in Hl as [_ Hl]. discriminate.
  - rewrite <- Hl. unfold push. rewrite removelast_last, last_last, append_assoc.
    reflexivity.
Qed.

Lemma joinFirst_length (log : list string) (a : string) :
  List.length (joinFirst log a) = Nat.max 1 (List.length log).
Proof.
  destruct log as [| y log]; [reflexivity |].
  unfold joinFirst, push. rewrite length_app. cbn [List.length].
  assert (H : S (List.length (removelast (y :: log))) = List.length (y :: log)).
  { rewrite (app_removelast_last EmptyString (l := y :: log)) at 2 by discriminate.
    rewrite length_app. cbn [List.length]. lia. }
  cbn [List.length] in *. lia.
Qed.

(** In the [background] state, a chunk that arrives in two parts, the first
    of which holds no line terminator, leaves the same log as the whole
    chunk: the two parts of the line are joined in one entry. *)
Theorem receiveData_background_joins (a b : string) (p : ComPort) :
  state p = background ->
  includes LF a = false -> includes CR a = false ->
  (List.length (backgroundBuffer p) <= 1000)%nat ->
  receiveData b (receiveData a p) = receiveData (a ++ b) p.
Proof.
  intros Hst Hlf Hcr Hlen.
  assert (Hends : endsWith CR a = false) by (apply includes_endsWith; exact Hcr).
  assert (Hfirst : logLines a (backgroundBuffer p) = joinFirst (backgroundBuffer p) a).
  { rewrite logLines_appendedLog. unfold appendedLog, endsWithTerminator, splitLines.
    rewrite <- (append_nil_r a) at 1 2.
    rewrite (splitLinesFrom_partial a "" "" Hlf Hends). cbn [splitLinesFrom append hd tl filter].
    rewrite (includes_endsWith _ _ Hlf), Hends. cbn [orb]. rewrite app_nil_r. reflexivity. }
  assert (Hstep : receiveData a p
                  = setBackgroundBuffer (joinFirst (backgroundBuffer p) a) p).
  { unfold receiveData. rewrite Hst, Hfirst, limitLog_small; [reflexivity |].
    rewrite joinFirst_length. lia. }
  rewrite Hstep. unfold receiveData. cbn [state setBackgroundBuffer backgroundBuffer].
  rewrite Hst.
  transitivity (setBackgroundBuffer
                  (limitLog (logLines b (joinFirst (backgroundBuffer p) a))) p);
    [destruct p; reflexivity |].
  f_equal. f_equal. rewrite !logLines_appendedLog. unfold appendedLog.
  assert (Hsplit : splitLines (a ++ b)
                   = (a ++ hd EmptyString (splitLines b)) :: tl (splitLines b)).
  { unfold splitLines at 1. rewrite (splitLinesFrom_partial a b "" Hlf Hends).
    cbn [append]. apply splitLinesFrom_cur. }
  rewrite Hsplit. cbn [hd tl]. rewrite joinFirst_joinFirst.
  assert (Hterm : endsWithTerminator (a ++ b) = endsWithTerminator b).
  { unfold endsWithTerminator. destruct b as [| c b].
    - rewrite append_nil_r, (includes_endsWith _ _ Hlf), Hends. reflexivity.
    - rewrite !endsWith_append by discriminate. reflexivity. }
  rewrite Hterm. reflexivity.
Qed.

Lemma receiveData_background_joins_witness :
  backgroundBuffer (receiveData ("lo" ++ nl ++ "wor")
                      (receiveData "hel" (setBackgroundBuffer ["first"] connectedPort)))
  = ["firsthello"; "wor"].
Proof.
  rewrite (receiveData_background_joins "hel" ("lo" ++ nl ++ "wor")
             (setBackgroundBuffer ["first"] connectedPort) eq_refl eq_refl eq_refl);
    [reflexivity | cbn; lia].
Defined.

(** In the [busy] state, with a read pattern that has neither the [g] nor
    the [y] flag, a text that arrives in two chunks, the first of which does
    not complete the response, leaves the port as the text arriving in one
    chunk does: the pattern is tried on what has accumulated.  (With one of
    these flags the outcome also depends on the [lastIndex] that earlier
    tests have left in the pattern.) *)
Theorem receiveData_busy_accumulates (a b : string) (p : ComPort) (re : RegExp) :
  state p = busy -> readMatch p = Some re ->
  re (trim (buffer p ++ a)) = false ->
  receiveData b (receiveData a p) = receiveData (a ++ b) p.
Proof.
  intros Hst Hre Hno.
  assert (Hstep : receiveData a p = setBuffer (buffer p ++ a) p).
  { unfold receiveData. rewrite Hst, Hre. cbn zeta. cbn [buffer setBuffer].
    rewrite Hno. reflexivity. }
  rewrite Hstep. unfold receiveData. cbn [state setBuffer readMatch buffer].
  rewrite Hst, Hre. cbn zeta. cbn [buffer setBuffer].
  rewrite append_assoc.
  destruct (re (trim (buffer p ++ a ++ b))); destruct p; reflexivity.
Qed.

Lemma receiveData_busy_accumulates_witness :
  readComplete (receiveData "TED" (receiveData "INIT"
                  (setBuffer EmptyString readingPort))) = true
  /\ buffer (receiveData "TED" (receiveData "INIT"
               (setBuffer EmptyString readingPort))) = "INITTED".
Proof.
  rewrite (receiveData_busy_accumulates "INIT" "TED" (setBuffer EmptyString readingPort)
             (occursIn "INITTED") eq_refl eq_refl eq_refl).
  split; reflexivity.
Defined.

(* ================================================================== *)
(** ** [send]: what it writes and what it keeps *)

Lemma silent_refl (s : System) : silent s s.
Proof. repeat split. Qed.

Lemma silent_trans (s1 s2 s3 : System) : silent s1 s2 -> silent s2 s3 -> silent s1 s3.
Proof.
  unfold silent, sameConfig.
  intros [(a1 & a2 & a3 & a4 & a5) a6] [(b1 & b2 & b3 & b4 & b5) b6].
  repeat split; congruence.
Qed.

Lemma close_silent (s : System) : silent s (snd (close s)).
Proof.
  unfold close. destruct (port (self s)); [| apply silent_refl].
  cbn [isOpen negb]. destruct (nextResponse _); repeat split.
Qed.

Lemma deliver_silent (s : System) (e : Event) : silent s (deliver s e).
Proof.
  destruct e as [chunk | message closesPort]; cbn [deliver].
  - unfold receiveData. destruct (state (self s)); try (repeat split; fail).
    destruct (readMatch (self s)) as [re |]; [| repeat split].
    cbn zeta. destruct (re _); repeat split.
  - unfold receiveError.
    match goal with |- context [withSelf ?p' s] => set (s0 := withSelf p' s) end.
    assert (H0 : silent s s0).
    { unfold s0. destruct (port (self s)); [destruct closesPort |]; repeat split. }
    destruct (portIsOpen _).
    + eapply silent_trans; [exact H0 | repeat split].
    + destruct (port (setLastError (Some message) (self s0))).
      * eapply silent_trans; [exact H0 |].
        eapply silent_trans; [| apply close_silent]. repeat split.
      * eapply silent_trans; [exact H0 | repeat split].
Qed.

Lemma setTimeout_silent (ms : Z) (s : System) : silent s (setTimeout ms s).
Proof.
  unfold setTimeout.
  set (s0 := mkSystem (self s) _).
  assert (H0 : silent s s0) by repeat split.
  clearbody s0. revert s0 H0.
  induction (events match ticks (world s) with t :: _ => t | [] => mkTick [] 0 end)
    as [| e es IH]; intros s0 H0; cbn [fold_left]; [exact H0 |].
  apply IH. eapply silent_trans; [exact H0 | apply deliver_silent].
Qed.

Lemma waitWhile_silent (st : PortState) (ms : Z) (attempts : nat) :
  forall s, silent s (waitWhile st ms attempts s).
Proof.
  induction attempts as [| k IH]; intros s; cbn [waitWhile]; [apply silent_refl |].
  destruct (PortState_eqb _ st); [| apply silent_refl].
  eapply silent_trans; [apply setTimeout_silent | apply IH].
Qed.

Lemma connect_silent (baudArg : option Z) (s : System) :
  silent s (snd (connect baudArg s)).
Proof.
  unfold connect.
  destruct (if match baudArg with Some b => negb (b =? 0) | None => false end
            then baudArg else option_map baud (type (self s)));
    [| apply silent_refl].
  destruct (nextResponse _); repeat split.
Qed.

Lemma lockPort_silent (s : System) : silent s (snd (lockPort s)).
Proof.
  unfold lockPort. destruct (PortState_eqb (state (self s)) background);
    [repeat split |].
  unfold bind.
  assert (H1 : silent s (snd ((if PortState_eqb (state (self s)) closed
                               then connect None else resolve tt) s))).
  { destruct (PortState_eqb (state (self s)) closed);
      [apply connect_silent | apply silent_refl]. }
  destruct ((if PortState_eqb (state (self s)) closed then connect None
             else resolve tt) s) as [[[] | e |] s1]; cbn [snd] in *; try exact H1.
  cbv zeta.
  set (s2 := waitWhile connecting 100 10 s1).
  assert (H2 : silent s s2)
    by (eapply silent_trans; [exact H1 | apply waitWhile_silent]).
  destruct (PortState_eqb (state (self s2)) connecting); [exact H2 |].
  set (s3 := waitWhile busy 500 10 s2).
  assert (H3 : silent s s3)
    by (eapply silent_trans; [exact H2 | apply waitWhile_silent]).
  destruct (PortState_eqb (state (self s3)) busy); [exact H3 |].
  eapply silent_trans; [exact H3 | repeat split].
Qed.

Lemma checkCompletion_silent (polls : nat) (time : Z) :
  forall s, silent s (snd (checkCompletion polls time s)).
Proof.
  induction polls as [| k IH]; intros s; cbn [checkCompletion];
    destruct (readComplete (self s)); try apply silent_refl;
    destruct (now (world s) - time >? timeout (self s)); try apply silent_refl;
    destruct (errorSet (lastError (self s))); try apply silent_refl.
  eapply silent_trans; [apply setTimeout_silent | apply IH].
Qed.

Lemma read_silent (m : RegExp) (s : System) : silent s (snd (read m s)).
Proof.
  unfold read. eapply silent_trans; [| apply checkCompletion_silent]. repeat split.
Qed.


Lemma sameConfig_trans (p q r : ComPort) :
  sameConfig p q -> sameConfig q r -> sameConfig p r.
Proof.
  unfold sameConfig. intros (a1 & a2 & a3 & a4 & a5) (b1 & b2 & b3 & b4 & b5).
  repeat split; congruence.
Qed.

Lemma write_step (cmd : string) (s : System) :
  sameConfig (self s) (self (snd (write cmd s)))
  /\ fst (write cmd s) <> Pending
  /\ (written (world (snd (write cmd s)))
      = push (written (world s)) (cmd ++ lineEnding (self s))
      \/ fst (write cmd s) = Rejected portNotOpenMessage
         /\ written (world (snd (write cmd s))) = written (world s)).
Proof.
  unfold write. destruct (portIsOpen (self s)); cbn [negb].
  - destruct (nextResponse (writeResponses (world s)));
      (split; [repeat split |]); (split; [discriminate | left; reflexivity]).
  - split; [repeat split |]. split; [discriminate | right; split; reflexivity].
Qed.

Lemma read_settles (m : RegExp) (s : System) : fst (read m s) <> Pending.
Proof.
  pose proof (read_outcome m s) as H.
  destruct (read m s) as [[v | e |] s']; [discriminate | discriminate | contradiction].
Qed.

(** The commands of [send] reach the transport in the order of the macros,
    each once and each followed by the line ending of the port, with nothing
    else in between: what has been written when [send] stops, however it
    stops, is what was written before followed by the first [k] commands,
    and by all of them when [send] resolves.  [send] changes neither the
    timeout, the path, the line ending, the name nor the type of the
    port. *)
Theorem executeMacros_writes_in_order (macros : list ComMacro) :
  forall (responses : list string) (s : System),
    sameConfig (self s) (self (snd (executeMacros macros responses s)))
    /\ exists k,
         (k <= List.length macros)%nat
         /\ written (world (snd (executeMacros macros responses s)))
            = (written (world s) ++ map (wireText (self s)) (firstn k macros))%list
         /\ (forall v, fst (executeMacros macros responses s) = Resolved v ->
                       k = List.length macros).
Proof.
  induction macros as [| m rest IH]; intros rs s; cbn [executeMacros].
  - split; [repeat split |]. exists O. cbn. rewrite app_nil_r.
    split; [lia |]. split; [reflexivity | intros v H; reflexivity].
  - unfold bind.
    pose proof (lockPort_silent s) as [Hc1 Hw1].
    destruct (lockPort s) as [[[] | e |] s1]; cbn [snd fst] in *.
    2,3: (split; [exact Hc1 |]; exists O; cbn [firstn map]; rewrite app_nil_r;
          split; [lia |]; split; [exact Hw1 | intros v H; discriminate]).
    pose proof (write_step (command m) s1) as (Hc2 & Hne2 & Hw2).
    assert (Hle1 : lineEnding (self s1) = lineEnding (self s))
      by (destruct Hc1 as (_ & _ & H & _); exact H).
    destruct (write (command m) s1) as [[[] | e |] s2]; cbn [snd fst] in *.
    3: { exfalso. apply Hne2. reflexivity. }
    + destruct Hw2 as [Hw2 | [Hw2 _]]; [| discriminate].
      pose proof (read_silent (response m) s2) as [Hc3 Hw3].
      destruct (read (response m) s2) as [[r | e |] s3]; cbn [snd fst] in *.
      * destruct (IH (push rs r) s3) as (Hc4 & k & Hk & Hw4 & Hres).
        assert (Hc : sameConfig (self s) (self s3)).
        { eapply sameConfig_trans; [exact Hc1 |].
          eapply sameConfig_trans; [exact Hc2 | exact Hc3]. }
        split; [eapply sameConfig_trans; eassumption |].
        exists (S k). split; [cbn; lia |]. split.
        -- rewrite Hw4, Hw3, Hw2, Hw1. unfold push. cbn [firstn map].
           rewrite <- app_assoc. cbn [app]. unfold wireText at 2.
           rewrite Hle1. f_equal. f_equal. apply map_ext. intros x. unfold wireText.
           destruct Hc as (_ & _ & H & _). rewrite H. reflexivity.
        -- intros v Hv. cbn [List.length]. rewrite (Hres v Hv). reflexivity.
      * split; [eapply sameConfig_trans; [exact Hc1 |];
                eapply sameConfig_trans; eassumption |].
        exists 1%nat. split; [cbn; lia |]. split; [| intros v H; discriminate].
        rewrite Hw3, Hw2, Hw1. unfold push, wireText. cbn [firstn map].
        rewrite Hle1. reflexivity.
      * split; [eapply sameConfig_trans; [exact Hc1 |];
                eapply sameConfig_trans; eassumption |].
        exists 1%nat. split; [cbn; lia |]. split; [| intros v H; discriminate].
        rewrite Hw3, Hw2, Hw1. unfold push, wireText. cbn [firstn map].
        rewrite Hle1. reflexivity.
    + split; [eapply sameConfig_trans; eassumption |].
      destruct Hw2 as [Hw2 | [_ Hw2]].
      * exists 1%nat. split; [cbn; lia |]. split; [| intros v H; discriminate].
        rewrite Hw2, Hw1. unfold push, wireText. cbn [firstn map].
        rewrite Hle1. reflexivity.
      * exists O. cbn [firstn map]. rewrite app_nil_r. split; [lia |].
        split; [congruence | intros v H; discriminate].
Qed.

Lemma executeMacros_settles (macros : list ComMacro) :
  forall responses s, fst (executeMacros macros responses s) <> Pending.
Proof.
  induction macros as [| m rest IH]; intros rs s; cbn [executeMacros].
  - discriminate.
  - unfold bind.
    pose proof (proj1 (lockPort_cases s)) as H1.
    destruct (lockPort s) as [[[] | e |] s1]; cbn [fst] in *;
      [| discriminate | contradiction].
    pose proof (write_step (command m) s1) as (_ & H2 & _).
    destruct (write (command m) s1) as [[[] | e |] s2]; cbn [fst] in *;
      [| discriminate | contradiction].
    pose proof (read_settles (response m) s2) as H3.
    destruct (read (response m) s2) as [[r | e |] s3]; cbn [fst] in *;
      [| discriminate | contradiction].
    apply IH.
Qed.

(** [send] always settles, in every world: each of its waits is bounded. *)
Theorem send_settles (macros_operationId : list ComMacro + string) (params : value)
    (s : System) (r : Outcome (list string) * System) :
  send macros_operationId params s = Some r -> fst r <> Pending.
Proof.
  assert (Hm : forall ms r', sendMacros ms params s = Some r' -> fst r' <> Pending).
  { intros ms r'. unfold sendMacros. destruct ms as [[| m ms] |].
    - intros H. injection H as <-. discriminate.
    - destruct (truthy params).
      + destruct (substituteMacros params (m :: ms)) as [ms' |]; [| discriminate].
        intros H. injection H as <-. apply (executeMacros_settles ms').
      + intros H. injection H as <-. apply (executeMacros_settles (m :: ms)).
    - intros H. injection H as <-. discriminate. }
  unfold send. destruct macros_operationId as [ms | op].
  - apply Hm.
  - destruct (type (self s)) as [t |]; [apply Hm |].
    intros H. injection H as <-. discriminate.
Qed.

Lemma send_settles_witness :
  fst (executeMacros [helpMacro] [] (mkSystem connectedPort quietWorld)) <> Pending.
Proof.
  apply (send_settles (inl [helpMacro]) VUndefined (mkSystem connectedPort quietWorld)).
  reflexivity.
Defined.

(** [send] rejects at once, leaving the port and the transport untouched,
    when it is given an operation name and the port has no type, when the
    type has no macros under that name, and when the list of macros is
    empty. *)
Theorem send_configuration_errors (params : value) (s : System) :
  (forall operationId,
      type (self s) = None ->
      send (inr operationId) params s
      = Some (Rejected ("Cannot send to com port " ++ path (self s)
                        ++ " by operationId without a type."), s))
  /\ (forall operationId t,
        type (self s) = Some t -> macrosOf t operationId = None ->
        send (inr operationId) params s
        = Some (Rejected ("No macros provided to send to com port "
                          ++ path (self s) ++ "."), s))
  /\ send (inl []) params s
     = Some (Rejected ("No macros provided to send to com port "
                       ++ path (self s) ++ "."), s).
Proof.
  unfold send, sendMacros. repeat split.
  - intros op H. rewrite H. reflexivity.
  - intros op t H Hm. rewrite H, Hm. reflexivity.
Qed.

Lemma send_configuration_errors_witness :
  send (inr "help") VUndefined (mkSystem connectedPort quietWorld)
  = Some (Rejected
            "Cannot send to com port /dev/serialportMock by operationId without a type.",
          mkSystem connectedPort quietWorld)
  /\ send (inr "reboot") VUndefined
       (mkSystem (setTypeField (Some mockType) connectedPort) quietWorld)
     = Some (Rejected "No macros provided to send to com port /dev/serialportMock.",
             mkSystem (setTypeField (Some mockType) connectedPort) quietWorld).
Proof.
  split.
  - exact (proj1 (send_configuration_errors VUndefined
                    (mkSystem connectedPort quietWorld)) "help" eq_refl).
  - exact (proj1 (proj2 (send_configuration_errors VUndefined
                    (mkSystem (setTypeField (Some mockType) connectedPort) quietWorld)))
             "reboot" mockType eq_refl eq_refl).
Defined.

Lemma checkCompletion_readInv (m : RegExp) (polls : nat) (time : Z) :
  forall s, readInv m (self s) -> readInv m (self (snd (checkCompletion polls time s))).
Proof.
  induction polls as [| k IH]; intros s Hinv; cbn [checkCompletion];
    destruct (readComplete (self s)); try exact Hinv;
    destruct (now (world s) - time >? timeout (self s)); try exact Hinv;
    destruct (errorSet (lastError (self s))); try exact Hinv.
  apply IH. apply setTimeout_readInv. exact Hinv.
Qed.

(** A read that resolves leaves a port that is no longer [busy]. *)
Lemma read_resolved_idle (m : RegExp) (s s' : System) (v : string) :
  read m s = (Resolved v, s') -> state (self s') <> busy.
Proof.
  intros Hrun. pose proof (read_outcome m s) as Hout. rewrite Hrun in Hout.
  destruct Hout as (_ & _ & Hrc).
  assert (Hinv : readInv m (self s')).
  { replace s' with (snd (read m s)) by (rewrite Hrun; reflexivity).
    unfold read. apply checkCompletion_readInv. split; [reflexivity |]. cbn. discriminate. }
  exact (proj1 (proj2 Hinv Hrc)).
Qed.

Lemma executeMacros_resolved_background (rest : list ComMacro) :
  forall (m : ComMacro) (rs : list string) (s s' : System) (responses : list string),
    steady s ->
    executeMacros (m :: rest) rs s = (Resolved responses, s') ->
    state (self s') = background /\ portIsOpen (self s') = true.
Proof.
  induction rest as [| m' rest IH]; intros m rs s s' responses Hs Hrun;
    cbn [executeMacros] in Hrun; unfold bind in Hrun.
  - pose proof (lockPort_safe s Hs) as [_ Hs1].
    destruct (lockPort s) as [[[] | e |] s1]; try discriminate.
    pose proof (write_safe (command m) s1 Hs1) as [_ Hs2].
    destruct (write (command m) s1) as [[[] | e |] s2]; try discriminate.
    pose proof (read_safe (response m) s2 Hs2) as [_ Hs3].
    destruct (read (response m) s2) as [[r | e |] s3] eqn:Hread; try discriminate.
    pose proof (read_resolved_idle _ _ _ _ Hread) as Hidle.
    cbn in Hrun. injection Hrun as _ <-. cbn [snd] in Hs3.
    destruct Hs3 as [[Hopen [Hbg | Hbusy]] _]; [| contradiction].
    split; assumption.
  - pose proof (lockPort_safe s Hs) as [_ Hs1].
    destruct (lockPort s) as [[[] | e |] s1]; try discriminate.
    pose proof (write_safe (command m) s1 Hs1) as [_ Hs2].
    destruct (write (command m) s1) as [[[] | e |] s2]; try discriminate.
    pose proof (read_safe (response m) s2 Hs2) as [_ Hs3].
    destruct (read (response m) s2) as [[r | e |] s3]; try discriminate.
    exact (IH m' (push rs r) s3 s' responses Hs3 Hrun).
Qed.

(** On a port whose transport is open and stays open, a [send] that
    resolves leaves the port in the [background] state, with its handle
    open, and has read one response for every macro, in order, each matched
    by the pattern of its macro. *)
Theorem send_success_background (m : ComMacro) (rest : list ComMacro)
    (s s' : System) (responses : list string) :
  steady s ->
  sendPlain (Some (m :: rest)) s = (Resolved responses, s') ->
  state (self s') = background /\ portIsOpen (self s') = true
  /\ Forall2 (fun macro r => response macro r = true) (m :: rest) responses.
Proof.
  unfold sendPlain. intros Hs Hrun.
  destruct (executeMacros_resolved _ _ _ _ _ Hrun) as (added & Heq & Hall & _).
  cbn [app] in Heq. subst added.
  destruct (executeMacros_resolved_background rest m [] s s' responses Hs Hrun)
    as [H1 H2].
  repeat split; assumption.
Qed.

Lemma send_success_background_witness :
  state (self (snd (sendPlain (Some [mkComMacro "INIT" (occursIn "INITTED")])
                      (mkSystem connectedPort splitResponseWorld)))) = background.
Proof.
  refine (proj1 (send_success_background (mkComMacro "INIT" (occursIn "INITTED")) []
                   (mkSystem connectedPort splitResponseWorld) _ ["INITTED"] _ _)).
  - split; [split; [reflexivity | left; reflexivity] | reflexivity].
  - vm_compute. reflexivity.
Defined.

Lemma checkCompletion_quiet_ticks (polls : nat) (time : Z) :
  forall s, ticks (world s) = [] ->
            ticks (world (snd (checkCompletion polls time s))) = []
            /\ writeResponses (world (snd (checkCompletion polls time s)))
               = writeResponses (world s).
Proof.
  induction polls as [| k IH]; intros s Hq; cbn [checkCompletion];
    destruct (readComplete (self s)); try (split; [exact Hq | reflexivity]);
    destruct (now (world s) - time >? timeout (self s));
    try (split; [exact Hq | reflexivity]);
    destruct (errorSet (lastError (self s))); try (split; [exact Hq | reflexivity]).
  destruct (setTimeout_quiet 100 s Hq) as (_ & Hq' & _ & Hwr & _).
  destruct (IH _ Hq') as [H1 H2]. split; [exact H1 | congruence].
Qed.

(** After a [send] whose read has timed out the port is stuck: when nothing
    arrives, the next [send] on it waits for the lock, gives up with the
    lock-timeout error and writes nothing. *)
Theorem send_after_timeout_is_locked_out (m1 m2 : ComMacro) (rest1 rest2 : list ComMacro)
    (s : System) :
  state (self s) = background ->
  portIsOpen (self s) = true ->
  nextResponse (writeResponses (world s)) = None ->
  ticks (world s) = [] ->
  fst (sendPlain (Some (m1 :: rest1)) s) = Rejected (timeoutMessage (self s))
  /\ fst (sendPlain (Some (m2 :: rest2)) (snd (sendPlain (Some (m1 :: rest1)) s)))
     = Rejected lockTimeoutMessage
  /\ written (world (snd (sendPlain (Some (m2 :: rest2))
                            (snd (sendPlain (Some (m1 :: rest1)) s)))))
     = written (world (snd (sendPlain (Some (m1 :: rest1)) s))).
Proof.
  intros Hst Hopen Hwrite Hq.
  destruct (sendPlain_read_timeout m1 rest1 s Hst Hopen Hwrite Hq) as [Hout Hbusy].
  split; [exact Hout |].
  assert (Hq1 : ticks (world (snd (sendPlain (Some (m1 :: rest1)) s))) = []).
  { unfold sendPlain. cbn [executeMacros]. unfold bind, lockPort. rewrite Hst.
    cbn [PortState_eqb]. unfold write. cbn [self withSelf world].
    replace (portIsOpen (setState busy (self s))) with true by (symmetry; exact Hopen).
    cbn [negb]. rewrite Hwrite. unfold read.
    match goal with |- context [checkCompletion ?n ?tm ?x] =>
      pose proof (checkCompletion_quiet_ticks n tm x Hq) as [Ht _];
      pose proof (checkCompletion_quiet n tm x) as Hc;
      destruct (checkCompletion n tm x) as [[v | e |] s2] end; cbn [snd fst] in *.
    - exfalso.
      assert (Hr : Resolved v = Rejected (timeoutMessage (self s))); [| discriminate Hr].
      apply Hc; [exact Hq | reflexivity | reflexivity |].
      pose proof (pollBudget_enough (timeout (self s))).
      unfold withSelf; cbn -[pollBudget Z.of_nat Z.mul Z.add Z.sub Z.lt]. lia.
    - exact Ht.
    - exact Ht. }
  set (s1 := snd (sendPlain (Some (m1 :: rest1)) s)) in *.
  destruct (lockPort_busy_rejects s1 Hq1 Hbusy) as (Hlock & _ & _ & Hwr).
  unfold sendPlain. cbn [executeMacros]. unfold bind.
  destruct (lockPort s1) as [[[] | e |] s2]; cbn [fst snd] in *; try discriminate.
  injection Hlock as ->. split; [reflexivity | exact Hwr].
Qed.

Lemma send_after_timeout_is_locked_out_witness :
  fst (sendPlain (Some [helpMacro])
         (snd (sendPlain (Some [helpMacro]) (mkSystem connectedPort quietWorld))))
  = Rejected lockTimeoutMessage.
Proof.
  exact (proj1 (proj2 (send_after_timeout_is_locked_out helpMacro helpMacro [] []
                         (mkSystem connectedPort quietWorld)
                         eq_refl eq_refl eq_refl eq_refl))).
Defined.

(* ================================================================== *)
(** ** [setType]: when the type is assigned *)

Lemma executeMacros_config (macros : list ComMacro)
    (responses : list string) (s : System) :
  sameConfig (self s) (self (snd (executeMacros macros responses s))).
Proof.
  induction macros as [| m rest IH] in responses, s |- *; cbn [executeMacros].
  - repeat split.
  - unfold bind.
    pose proof (lockPort_silent s) as [Hc1 _].
    destruct (lockPort s) as [[[] | e |] s1]; cbn [snd] in *; try exact Hc1.
    pose proof (write_step (command m) s1) as (Hc2 & _ & _).
    destruct (write (command m) s1) as [[[] | e |] s2]; cbn [snd] in *;
      try (eapply sameConfig_trans; eassumption).
    pose proof (read_silent (response m) s2) as [Hc3 _].
    destruct (read (response m) s2) as [[r | e |] s3]; cbn [snd] in *;
      try (eapply sameConfig_trans; [exact Hc1 |]; eapply sameConfig_trans; eassumption).
    eapply sameConfig_trans; [exact Hc1 |]. eapply sameConfig_trans; [exact Hc2 |].
    eapply sameConfig_trans; [exact Hc3 | apply IH].
Qed.

Lemma setType_settings (t : ComType) (s : System) :
  match (connect (Some (baud t)) ;; sleep (startupDelay t) ;;
         sendPlain (Some (init t))) s with
  | (Resolved _, _) => type (self (snd (setType t s))) = Some t
  | _ => type (self (snd (setType t s))) = type (self s)
  end
  /\ timeout (self (snd (setType t s))) = timeout (self s)
  /\ path (self (snd (setType t s))) = path (self s)
  /\ lineEnding (self (snd (setType t s))) = lineEnding (self s)
  /\ name (self (snd (setType t s))) = name (self s).
Proof.
  unfold setType, tryFinally, bind.
  pose proof (connect_silent (Some (baud t)) s) as [Hc1 _].
  destruct (connect (Some (baud t)) s) as [[[] | e |] s1]; cbn [snd] in Hc1.
  - pose proof (setTimeout_silent (startupDelay t) s1) as [Hc2 _].
    unfold sleep.
    set (s2 := setTimeout (startupDelay t) s1) in *.
    assert (Hc3 : sameConfig (self s2) (self (snd (sendPlain (Some (init t)) s2)))).
    { unfold sendPlain. destruct (init t); [repeat split |].
      apply executeMacros_config. }
    assert (Hrc : forall rs s3, sendPlain (Some (init t)) s2 = (Resolved rs, s3) ->
                                readComplete (self s3) = true).
    { intros rs s3 H. unfold sendPlain in H. destruct (init t) as [| m ms]; [discriminate |].
      destruct (executeMacros_resolved _ _ _ _ _ H) as (_ & _ & _ & Hr).
      apply Hr. discriminate. }
    destruct (sendPlain (Some (init t)) s2) as [[rs | e |] s3]; cbn [snd] in Hc3.
    + rewrite (Hrc rs s3 eq_refl).
      match goal with |- context [close ?x] =>
        pose proof (close_silent x) as [Hc4 _]; destruct (close x) as [[[] | e |] s4] end;
        cbn [snd] in *;
        destruct Hc1 as (a1 & a2 & a3 & a4 & a5), Hc2 as (b1 & b2 & b3 & b4 & b5),
                 Hc3 as (c1 & c2 & c3 & c4 & c5), Hc4 as (d1 & d2 & d3 & d4 & d5);
        cbn in d1, d2, d3, d4, d5; repeat split; congruence.
    + pose proof (close_silent s3) as [Hc4 _]. destruct (close s3) as [[[] | e' |] s4];
        cbn [snd] in *;
        destruct Hc1 as (a1 & a2 & a3 & a4 & a5), Hc2 as (b1 & b2 & b3 & b4 & b5),
                 Hc3 as (c1 & c2 & c3 & c4 & c5), Hc4 as (d1 & d2 & d3 & d4 & d5);
        repeat split; congruence.
    + cbn [snd].
      destruct Hc1 as (a1 & a2 & a3 & a4 & a5), Hc2 as (b1 & b2 & b3 & b4 & b5),
               Hc3 as (c1 & c2 & c3 & c4 & c5);
        repeat split; congruence.
  - pose proof (close_silent s1) as [Hc4 _]. destruct (close s1) as [[[] | e' |] s4];
      cbn [snd] in *;
      destruct Hc1 as (a1 & a2 & a3 & a4 & a5), Hc4 as (d1 & d2 & d3 & d4 & d5);
      repeat split; congruence.
  - cbn [snd]. destruct Hc1 as (a1 & a2 & a3 & a4 & a5). repeat split; congruence.
Qed.

(** [setType] assigns the type exactly when its probe has resolved, whatever
    the close that follows does: when the probe resolves the type of the
    port is the one tried, even if [setType] is then rejected with an error
    of the close; when the probe fails the type of the port is what it
    was.  The timeout, path, line ending and name of the port are kept. *)
Theorem setType_assigns_type (t : ComType) (s : System) :
  match (connect (Some (baud t)) ;; sleep (startupDelay t) ;;
         sendPlain (Some (init t))) s with
  | (Resolved _, _) => type (self (snd (setType t s))) = Some t
  | _ => type (self (snd (setType t s))) = type (self s)
  end
  /\ timeout (self (snd (setType t s))) = timeout (self s)
  /\ path (self (snd (setType t s))) = path (self s)
  /\ lineEnding (self (snd (setType t s))) = lineEnding (self s)
  /\ name (self (snd (setType t s))) = name (self s).
Proof. exact (setType_settings t s). Qed.

(* ================================================================== *)
(** ** Parameter substitution: tokens, values and paths *)

Lemma substring_prefix (x r : string) : substring 0 (String.length x) (x ++ r) = x.
Proof.
  induction x as [| c x IH]; cbn; [destruct r; reflexivity | rewrite IH; reflexivity].
Qed.

Lemma substring_skip (x r : string) (n : nat) :
  substring (String.length x) n (x ++ r) = substring 0 n r.
Proof. induction x as [| c x IH]; cbn; [reflexivity | exact IH]. Qed.

Lemma substring_all (r : string) : substring 0 (String.length r) r = r.
Proof. induction r as [| c r IH]; cbn; [reflexivity | rewrite IH; reflexivity]. Qed.

Lemma includes_append (c : ascii) (a b : string) :
  includes c (a ++ b) = includes c a || includes c b.
Proof.
  induction a as [| d a IH]; cbn; [reflexivity |]. rewrite IH, orb_assoc. reflexivity.
Qed.


(** What [replaceAll] does to the one token of a command: the token is
    replaced by the expansion of the replacement text. *)
Lemma replaceAll_token_expanded (pre t post replacement : string) :
  includes "{" pre = false -> includes "{" post = false ->
  replaceAll (AChar "{" :: literal t ++ [AChar "}"])%list replacement
    (pre ++ String "{" (t ++ String "}" post))
  = pre ++ expandReplacement replacement (String "{" (t ++ "}")) pre post ++ post.
Proof.
  intros Hpre Hpost. unfold replaceAll.
  rewrite (replaceFrom_outside _ _ _ _ _ Hpre). f_equal.
  cbn [replaceFrom].
  replace (matchesAt (AChar "{" :: literal t ++ [AChar "}"])%list
             (String "{" (t ++ String "}" post))) with true.
  2:{ cbn [matchesAt atomMatches]. rewrite Ascii.eqb_refl. cbn [andb].
      rewrite matchesAt_literal. cbn. reflexivity. }
  cbn [List.length]. rewrite length_app, length_literal. cbn [List.length].
  replace (String "{" (t ++ String "}" post)) with (String "{" (t ++ "}") ++ post)
    by (cbn; rewrite append_assoc; reflexivity).
  replace (S (String.length t + 1)) with (String.length (String "{" (t ++ "}")))
    by (cbn; rewrite length_append; cbn; lia).
  rewrite substring_prefix, substring_skip.
  replace (String.length (String "{" (t ++ "}") ++ post)
           - String.length (String "{" (t ++ "}")))%nat with (String.length post)
    by (rewrite length_append; lia).
  rewrite substring_all. cbn [append]. f_equal.
  replace (String.length (String "{" (t ++ "}")) - 1)%nat with (String.length (t ++ "}"))
    by (cbn; lia).
  replace (t ++ String "}" post) with ((t ++ "}") ++ post)
    by (rewrite append_assoc; reflexivity).
  rewrite replaceFrom_skip.
  rewrite <- (append_nil_r post) at 1.
  rewrite (replaceFrom_outside _ _ _ _ _ Hpost). cbn. rewrite append_nil_r.
  reflexivity.
Qed.




(** A value is not always inserted as it is: it is used as a replacement
    pattern.  The value [$&] puts the token back, so that the command is
    unchanged, and the value [$$] inserts a single [$]. *)
Theorem param_value_dollar
    (fields : list (string * value)) (pre t post : string) :
  isName t = true ->
  includes "{" pre = false ->
  includes "{" post = false ->
  (lookupField t fields = Some (VStr "$&") ->
   substituteCommand (VObj fields) (pre ++ "{" ++ t ++ "}" ++ post)
   = Some (pre ++ "{" ++ t ++ "}" ++ post))
  /\ (lookupField t fields = Some (VStr "$$") ->
      substituteCommand (VObj fields) (pre ++ "{" ++ t ++ "}" ++ post)
      = Some (pre ++ "$" ++ post)).
Proof.
  intros Hname Hpre Hpost.
  destruct (isName_wordChars t Hname) as [Hword Hne].
  assert (Hclose : includes "}" t = false)
    by (apply allWordChars_excludes; [reflexivity | exact Hword]).
  assert (Hdot : includes "." t = false)
    by (apply allWordChars_excludes; [reflexivity | exact Hword]).
  unfold substituteCommand.
  change (pre ++ "{" ++ t ++ "}" ++ post) with (pre ++ String "{" (t ++ String "}" post)).
  rewrite (commandParams_one_token pre t post Hpre Hpost Hclose Hne).
  cbn [fold_left replaceParam].
  rewrite (topName_plain t Hdot).
  split; intros Hfound; rewrite (inheritedProp_own fields t _ Hfound);
    rewrite (compileRegExp_name t Hname);
    unfold resolveParam; rewrite Hdot; cbn [getProp];
    rewrite Hfound; cbn [toString];
    rewrite (replaceAll_token_expanded pre t post _ Hpre Hpost);
    cbn [expandReplacement append]; [| reflexivity].
  rewrite append_nil_r, append_assoc. reflexivity.
Qed.

Lemma param_value_dollar_witness :
  substituteCommand (VObj [("val", VStr "$&")]) "SET DATA {val}"
  = Some "SET DATA {val}".
Proof.
  exact (proj1 (param_value_dollar [("val", VStr "$&")] "SET DATA " "val" ""
                  eq_refl eq_refl eq_refl) eq_refl).
Defined.

Lemma commandParams_no_brace (cmd : string) :
  includes "{" cmd = false -> commandParams cmd = [].
Proof.
  intros H. unfold commandParams.
  rewrite <- (append_nil_r cmd), (commandParamsFrom_outside _ _ H). reflexivity.
Qed.

(** Macros whose commands hold no opening brace are sent as they are:
    [send] does with [params] what it does without. *)
Theorem send_ignores_params_without_tokens
    (macros : list ComMacro) (params : value) (s : System) :
  Forall (fun m => includes "{" (command m) = false) macros ->
  send (inl macros) params s = send (inl macros) VUndefined s.
Proof.
  intros Hall. unfold send, sendMacros.
  destruct macros as [| m ms]; [reflexivity |].
  destruct (truthy params); [| reflexivity]. cbn [truthy].
  assert (Hsub : forall l, Forall (fun m => includes "{" (command m) = false) l ->
                           substituteMacros params l = Some l).
  { induction l as [| x l IH]; intros Hl; [reflexivity |].
    inversion Hl as [| ? ? Hx Hl']; subst. cbn [substituteMacros].
    rewrite (IH Hl'). unfold substituteMacro, substituteCommand.
    rewrite (commandParams_no_brace _ Hx). cbn. destruct x; reflexivity. }
  rewrite (Hsub _ Hall). reflexivity.
Qed.

Lemma send_ignores_params_without_tokens_witness :
  send (inl [helpMacro]) cityParams (mkSystem connectedPort quietWorld)
  = send (inl [helpMacro]) VUndefined (mkSystem connectedPort quietWorld).
Proof.
  apply send_ignores_params_without_tokens. repeat constructor.
Defined.

Lemma commandParamsFrom_groups (s : string) :
  forall (group : option string) (consumed : string),
    match group with
    | Some g => includes "}" g = false
                /\ exists c0, consumed = c0 ++ String "{" g
    | None => True
    end ->
    Forall (fun p => p <> EmptyString /\ includes "}" p = false
                     /\ exists pre post,
                          consumed ++ s = pre ++ String "{" (p ++ String "}" post))
           (commandParamsFrom group s).
Proof.
  induction s as [| c s IH]; intros group consumed Hg; cbn [commandParamsFrom];
    [constructor |].
  replace (consumed ++ String c s) with ((consumed ++ String c "") ++ s)
    by (rewrite append_assoc; reflexivity).
  destruct group as [g |].
  - destruct Hg as (Hclose & c0 & ->).
    destruct (c =? "}")%char eqn:Hc.
    + apply Ascii.eqb_eq in Hc. subst c.
      destruct g as [| d g'] eqn:Hgeq; [apply IH; exact I |].
      constructor; [| apply IH; exact I].
      split; [discriminate |]. split; [exact Hclose |].
      exists c0, s. rewrite !append_assoc. cbn [append]. reflexivity.
    + apply IH. split.
      * rewrite includes_append, Hclose. cbn [includes orb]. rewrite Hc. reflexivity.
      * exists c0. rewrite append_assoc. reflexivity.
  - destruct (c =? "{")%char eqn:Hc.
    + apply Ascii.eqb_eq in Hc. subst c. apply IH.
      split; [reflexivity | exists consumed; reflexivity].
    + apply IH. exact I.
Qed.

(** Every parameter name that [send] extracts from a command is the text of
    a group of the command: it stands between an opening brace and the next
    closing brace, is not empty and holds no closing brace. *)
Theorem commandParams_are_groups (cmd : string) :
  Forall (fun p => p <> EmptyString /\ includes "}" p = false
                   /\ exists pre post, cmd = pre ++ "{" ++ p ++ "}" ++ post)
         (commandParams cmd).
Proof.
  exact (commandParamsFrom_groups cmd None EmptyString I).
Qed.








(* ================================================================== *)
(** ** The classification of one port *)

(** Properties of the world that no step of the transport breaks: they
    survive a response being taken off a script, a command being recorded
    and a tick being consumed. *)
Section WorldInvariant.
Variable P : World -> Prop.
Hypothesis P_open : forall w, P w ->
  P (mkWorld (now w) (tl (openResponses w)) (writeResponses w) (closeResponses w)
       (ticks w) (written w)).
Hypothesis P_write : forall w x, P w ->
  P (mkWorld (now w) (openResponses w) (tl (writeResponses w)) (closeResponses w)
       (ticks w) (push (written w) x)).
Hypothesis P_close : forall w, P w ->
  P (mkWorld (now w) (openResponses w) (writeResponses w) (tl (closeResponses w))
       (ticks w) (written w)).
Hypothesis P_tick : forall w n, P w ->
  P (mkWorld n (openResponses w) (writeResponses w) (closeResponses w)
       (tl (ticks w)) (written w)).

Lemma bind_keeps {A B} (m : Async A) (k : A -> Async B) :
  keeps P m -> (forall a, keeps P (k a)) -> keeps P (bind m k).
Proof.
  intros Hm Hk s Hq. unfold bind. specialize (Hm s Hq).
  destruct (m s) as [[a | e |] s1]; cbn [snd] in *; try exact Hm.
  apply Hk. exact Hm.
Qed.

Lemma connect_keeps (baudArg : option Z) : keeps P (connect baudArg).
Proof.
  intros s H. unfold connect.
  destruct (if match baudArg with Some b => negb (b =? 0) | None => false end
            then baudArg else option_map baud (type (self s))); [| exact H].
  destruct (nextResponse (openResponses (world s))); cbn; apply P_open; exact H.
Qed.

Lemma close_keeps : keeps P close.
Proof.
  intros s H. unfold close.
  destruct (port (self s)); [| exact H].
  destruct (nextResponse (closeResponses (world s))); cbn; apply P_close; exact H.
Qed.

Lemma deliver_keeps (s : System) (e : Event) :
  P (world s) -> P (world (deliver s e)).
Proof.
  intros H. destruct e as [chunk | message closesPort]; [exact H |].
  unfold deliver, receiveError. cbv zeta.
  match goal with |- context [portIsOpen ?x] => destruct (portIsOpen x) end;
    [exact H |].
  match goal with |- context [match port ?x with _ => _ end] =>
    destruct (port x) end; [| exact H].
  apply close_keeps. exact H.
Qed.

Lemma deliverAll_keeps (es : list Event) :
  forall s, P (world s) -> P (world (fold_left deliver es s)).
Proof.
  induction es as [| e es IH]; intros s H; [exact H |].
  cbn [fold_left]. apply IH. apply deliver_keeps. exact H.
Qed.

Lemma setTimeout_keeps (ms : Z) (s : System) :
  P (world s) -> P (world (setTimeout ms s)).
Proof.
  intros H. unfold setTimeout. apply deliverAll_keeps. cbn. apply P_tick. exact H.
Qed.

Lemma waitWhile_keeps (st : PortState) (ms : Z) (attempts : nat) :
  forall s, P (world s) -> P (world (waitWhile st ms attempts s)).
Proof.
  induction attempts as [| k IH]; intros s Hq; cbn [waitWhile]; [exact Hq |].
  destruct (PortState_eqb _ st); [| exact Hq].
  apply IH. apply setTimeout_keeps. exact Hq.
Qed.

Lemma lockPort_keeps : keeps P lockPort.
Proof.
  intros s Hq. unfold lockPort.
  destruct (PortState_eqb (state (self s)) background); [exact Hq |].
  unfold bind.
  assert (H1 : P (world (snd ((if PortState_eqb (state (self s)) closed
                               then connect None else resolve tt) s)))).
  { destruct (PortState_eqb (state (self s)) closed);
      [apply connect_keeps; exact Hq | exact Hq]. }
  destruct ((if PortState_eqb (state (self s)) closed then connect None
             else resolve tt) s) as [[[] | e |] s1]; cbn [snd] in *; try exact H1.
  cbv zeta.
  set (s2 := waitWhile connecting 100 10 s1).
  assert (H2 : P (world s2)) by (apply waitWhile_keeps; exact H1).
  destruct (PortState_eqb (state (self s2)) connecting); [exact H2 |].
  set (s3 := waitWhile busy 500 10 s2).
  assert (H3 : P (world s3)) by (apply waitWhile_keeps; exact H2).
  destruct (PortState_eqb (state (self s3)) busy); exact H3.
Qed.

Lemma write_keeps (cmd : string) : keeps P (write cmd).
Proof.
  intros s H. unfold write.
  destruct (portIsOpen (self s)); cbn [negb]; [| exact H].
  destruct (nextResponse (writeResponses (world s))); cbn; apply P_write; exact H.
Qed.

Lemma checkCompletion_keeps (polls : nat) (time : Z) :
  forall s, P (world s) -> P (world (snd (checkCompletion polls time s))).
Proof.
  induction polls as [| k IH]; intros s Hq; cbn [checkCompletion];
    destruct (readComplete (self s)); try exact Hq;
    destruct (now (world s) - time >? timeout (self s)); try exact Hq;
    destruct (errorSet (lastError (self s))); try exact Hq.
  apply IH. apply setTimeout_keeps. exact Hq.
Qed.

Lemma read_keeps (m : RegExp) : keeps P (read m).
Proof. intros s Hq. unfold read. apply checkCompletion_keeps. exact Hq. Qed.

Lemma executeMacros_keeps (macros : list ComMacro) :
  forall responses, keeps P (executeMacros macros responses).
Proof.
  induction macros as [| m rest IH]; intros rs; cbn [executeMacros].
  - intros s Hq. exact Hq.
  - apply bind_keeps; [apply lockPort_keeps |]. intros _.
    apply bind_keeps; [apply write_keeps |]. intros _.
    apply bind_keeps; [apply read_keeps |]. intros r. apply IH.
Qed.

Lemma sendPlain_keeps (macros : option (list ComMacro)) :
  keeps P (sendPlain macros).
Proof.
  intros s Hq. unfold sendPlain. destruct macros as [[| m ms] |]; try exact Hq.
  apply executeMacros_keeps. exact Hq.
Qed.

Lemma setType_keeps (t : ComType) : keeps P (setType t).
Proof.
  intros s Hq. unfold setType, tryFinally.
  assert (Hbody : keeps P
            (connect (Some (baud t)) ;; sleep (startupDelay t) ;;
             sendPlain (Some (init t)) ;;
             fun s => if readComplete (self s)
                      then (Resolved true, withSelf (setTypeField (Some t) (self s)) s)
                      else (Resolved false, s))).
  { apply bind_keeps; [apply connect_keeps |]. intros _.
    apply bind_keeps; [intros s0 H0; apply setTimeout_keeps; exact H0 |].
    intros _. apply bind_keeps; [apply sendPlain_keeps |]. intros _.
    intros s0 H0. destruct (readComplete (self s0)); exact H0. }
  specialize (Hbody s Hq).
  match goal with |- context [match ?b s with _ => _ end] =>
    destruct (b s) as [[v | e |] s1] end; cbn [snd] in *; try exact Hbody;
    pose proof (close_keeps s1 Hbody) as Hc;
    destruct (close s1) as [[[] | e' |] s2]; cbn [snd] in *; exact Hc.
Qed.

Lemma tryTypes_keeps (types : list ComType) : keeps P (tryTypes types).
Proof.
  induction types as [| t rest IH]; intros s H; cbn [tryTypes]; [exact H |].
  pose proof (setType_keeps t s H) as H1.
  destruct (setType t s) as [[[|] | e |] s1]; cbn [snd] in H1;
    try (apply IH; exact H1); try exact H1.
  pose proof (connect_keeps None s1 H1) as H2.
  destruct (connect None s1) as [[[] | e |] s2]; cbn [snd] in H2;
    try (apply IH; exact H2); exact H2.
Qed.

End WorldInvariant.





Lemma calm_tick (w : World) (n : Z) : calm w = true ->
  calm (mkWorld n (openResponses w) (writeResponses w) (closeResponses w)
          (tl (ticks w)) (written w)) = true.
Proof.
  intros H. unfold calm in *. cbn. destruct (ticks w) as [| t ts]; [reflexivity |].
  cbn in H. apply andb_true_iff in H as [_ H]. exact H.
Qed.


Lemma setType_calm (t : ComType) : keeps (fun w => calm w = true) (setType t).
Proof.
  apply setType_keeps; try (intros w H; exact H); try (intros w x H; exact H).
  intros w n H. apply calm_tick. exact H.
Qed.

Lemma connect_calm (baudArg : option Z) :
  keeps (fun w => calm w = true) (connect baudArg).
Proof. apply connect_keeps. intros w H. exact H. Qed.




(** The classification of one port completes when every type names a baud
    rate and no error closes the transport while it runs. *)
Theorem tryTypes_settles (types : list ComType) (s : System) :
  Forall (fun t => baud t <> 0) types ->
  calm (world s) = true ->
  fst (tryTypes types s) <> Pending.
Proof.
  intros Hall. revert s. induction Hall as [| t rest Hbaud _ IH]; intros s Hcalm;
    cbn [tryTypes]; [discriminate |].
  pose proof (setType_settles t s Hbaud Hcalm) as Hne.
  pose proof (setType_calm t s Hcalm) as Hcalm1.
  destruct (setType t s) as [[[|] | e |] s1]; cbn [fst snd] in *;
    try (apply IH; exact Hcalm1); [| contradiction].
  pose proof (connect_settles None s1) as Hne2.
  pose proof (connect_calm None s1 Hcalm1) as Hcalm2.
  destruct (connect None s1) as [[[] | e |] s2]; cbn [fst snd] in *;
    [discriminate | apply IH; exact Hcalm2 | contradiction].
Qed.

Lemma tryTypes_settles_witness :
  fst (tryTypes [mockType] (mkSystem mockPort quietWorld)) <> Pending.
Proof.
  apply (tryTypes_settles [mockType] (mkSystem mockPort quietWorld)).
  - constructor; [discriminate | constructor].
  - reflexivity.
Defined.



(** The first type whose probe succeeds wins: when [setType] returns [true]
    for the first type of the list and the port can be reopened, the types
    that follow are not tried; the port has that type and is open at its
    baud rate in the [background] state. *)
Theorem tryTypes_first_match (t : ComType) (rest : list ComType) (s : System) :
  fst (setType t s) = Resolved true ->
  nextResponse (openResponses (world (snd (setType t s)))) = None ->
  tryTypes (t :: rest) s = tryTypes [t] s
  /\ fst (tryTypes (t :: rest) s) = Resolved tt
  /\ type (self (snd (tryTypes (t :: rest) s))) = Some t
  /\ state (self (snd (tryTypes (t :: rest) s))) = background
  /\ port (self (snd (tryTypes (t :: rest) s)))
     = Some (mkSerialPort true (path (self s)) (baud t)).
Proof.
  intros Hres Hopen. cbn [tryTypes].
  destruct (setType_settings t s) as (_ & _ & Hpath & _).
  destruct (setType t s) as [o s1] eqn:Hset. cbn [fst snd] in *. subst o.
  destruct (setType_resolved _ _ _ _ Hset) as (_ & Hty & _).
  unfold connect. rewrite Hty. cbn [option_map]. rewrite Hopen.
  cbn. rewrite Hpath. repeat split. exact Hty.
Qed.

Lemma tryTypes_first_match_witness :
  type (self (snd (tryTypes [mockType; mockType] (mkSystem mockPort respondingWorld))))
  = Some mockType.
Proof.
  exact (proj1 (proj2 (proj2
           (tryTypes_first_match mockType [mockType] (mkSystem mockPort respondingWorld)
              eq_refl eq_refl)))).
Defined.

(* ================================================================== *)
(** ** The hello to a known port *)

Lemma send_without_params (operationId : string) (s : System) :
  send (inr operationId) VUndefined s = Some (sendOperation operationId s).
Proof.
  unfold send, sendOperation, sendMacros, sendPlain.
  destruct (type (self s)) as [t |]; [| reflexivity].
  destruct (macrosOf t operationId) as [[| m ms] |]; reflexivity.
Qed.

Lemma executeMacros_calm (macros : list ComMacro) (responses : list string) :
  keeps (fun w => calm w = true) (executeMacros macros responses).
Proof.
  apply executeMacros_keeps; try (intros w H; exact H); try (intros w x H; exact H).
  intros w n H. apply calm_tick. exact H.
Qed.

Lemma close_calm : keeps (fun w => calm w = true) close.
Proof. apply close_keeps. intros w H. exact H. Qed.

(** On a closed port whose reconnection succeeds, [lockPort] goes on as on
    the reconnected port. *)
Lemma lockPort_closed_reconnect (s s1 : System) :
  state (self s) = closed ->
  connect None s = (Resolved tt, s1) ->
  lockPort s = lockPort s1 /\ state (self s1) = background
  /\ portIsOpen (self s1) = true.
Proof.
  intros Hcl Hcon. pose proof (connect_cases None s) as Hc. rewrite Hcon in Hc.
  destruct Hc as (Hst & b & Hport & _).
  split; [| split; [exact Hst | unfold portIsOpen; rewrite Hport; reflexivity]].
  unfold lockPort at 1. rewrite Hcl. cbn [PortState_eqb]. unfold bind. rewrite Hcon.
  cbv zeta.
  rewrite (waitWhile_other connecting 100 10 s1) by (rewrite Hst; reflexivity).
  rewrite Hst. cbn [PortState_eqb].
  rewrite (waitWhile_other busy 500 10 s1) by (rewrite Hst; reflexivity).
  rewrite Hst. cbn [PortState_eqb].
  unfold lockPort. rewrite Hst. reflexivity.
Qed.

Lemma sendPlain_parked (m : ComMacro) (ms : list ComMacro) (s : System) :
  parked s -> type (self s) <> None ->
  fst (sendPlain (Some (m :: ms)) s) <> Pending
  /\ parked (snd (sendPlain (Some (m :: ms)) s))
  /\ (forall rs, fst (sendPlain (Some (m :: ms)) s) = Resolved rs ->
        state (self (snd (sendPlain (Some (m :: ms)) s))) = background
        /\ portIsOpen (self (snd (sendPlain (Some (m :: ms)) s))) = true).
Proof.
  assert (Hsteady : forall s0, steady s0 ->
            fst (sendPlain (Some (m :: ms)) s0) <> Pending
            /\ parked (snd (sendPlain (Some (m :: ms)) s0))
            /\ (forall rs, fst (sendPlain (Some (m :: ms)) s0) = Resolved rs ->
                  state (self (snd (sendPlain (Some (m :: ms)) s0))) = background
                  /\ portIsOpen (self (snd (sendPlain (Some (m :: ms)) s0))) = true)).
  { intros s0 Hs. pose proof (sendPlain_safe (Some (m :: ms)) s0 Hs) as [Hne Hs'].
    split; [exact Hne |]. split.
    - split; [apply Hs' | left; apply Hs'].
    - intros rs Hr. unfold sendPlain in *.
      destruct (executeMacros (m :: ms) [] s0) as [o s'] eqn:Hrun.
      cbn [fst snd] in *. subst o.
      exact (executeMacros_resolved_background ms m [] s0 s' rs Hs Hrun). }
  intros [Hcalm [Hatt | [Hcl Hop]]] Hty.
  - apply Hsteady. split; assumption.
  - destruct (connect None s) as [[[] | e |] s1] eqn:Hcon.
    + destruct (lockPort_closed_reconnect s s1 Hcl Hcon) as (Hlock & Hst & Hopen).
      assert (Heq : sendPlain (Some (m :: ms)) s = sendPlain (Some (m :: ms)) s1).
      { unfold sendPlain. cbn [executeMacros]. unfold bind at 1 3. rewrite Hlock.
        reflexivity. }
      rewrite Heq. apply Hsteady. split; [split; [exact Hopen | left; exact Hst] |].
      pose proof (connect_calm None s Hcalm) as H. rewrite Hcon in H. exact H.
    + pose proof (connect_cases None s) as Hc. rewrite Hcon in Hc.
      destruct Hc as [(_ & _ & Hnone & _) | (_ & Hst & _ & Hopen)]; [contradiction |].
      pose proof (connect_calm None s Hcalm) as Hcalm1. rewrite Hcon in Hcalm1.
      cbn [snd] in Hcalm1.
      assert (Heq : sendPlain (Some (m :: ms)) s = (Rejected e, s1)).
      { unfold sendPlain. cbn [executeMacros]. unfold bind at 1. unfold lockPort.
        rewrite Hcl. cbn [PortState_eqb]. unfold bind at 1. rewrite Hcon. reflexivity. }
      rewrite Heq. cbn [fst snd]. split; [discriminate |]. split.
      * split; [exact Hcalm1 | right; split; assumption].
      * intros rs H. discriminate.
    + pose proof (connect_settles None s) as H. rewrite Hcon in H. contradiction.
Qed.

(** The hello to a known port that has a type, in a world where no error
    closes the transport, on a port that is open and idle or sending, or
    closed with no open handle: the hello completes; when the [init] macros
    were answered the port is open in the [background] state, and otherwise
    the port is [closed] and has no open handle.  Either way the port is
    again as a hello expects it, and its type is kept. *)
Theorem helloPort_outcome (s : System) :
  parked s -> type (self s) <> None ->
  fst (helloPort s) <> Pending
  /\ parked (snd (helloPort s))
  /\ type (self (snd (helloPort s))) = type (self s)
  /\ match fst (sendOperation "init" s) with
     | Resolved _ =>
         fst (helloPort s) = Resolved tt
         /\ state (self (snd (helloPort s))) = background
         /\ portIsOpen (self (snd (helloPort s))) = true
     | _ =>
         state (self (snd (helloPort s))) = closed
         /\ portIsOpen (self (snd (helloPort s))) = false
     end.
Proof.
  intros Hp Hty. unfold helloPort, sendOperation.
  destruct (type (self s)) as [t |] eqn:Htype; [| contradiction].
  change (macrosOf t "init") with (Some (init t)).
  assert (Hclose : forall s1,
            calm (world s1) = true -> type (self s1) = Some t ->
            attached (self s1) \/ state (self s1) = closed /\ portIsOpen (self s1) = false ->
            let r := if PortState_eqb (state (self s1)) closed
                     then (Resolved tt, s1) else close s1 in
            fst r <> Pending /\ parked (snd r) /\ type (self (snd r)) = Some t
            /\ state (self (snd r)) = closed /\ portIsOpen (self (snd r)) = false).
  { intros s1 Hcalm1 Hty1 [[Hopen Hst] | [Hcl Hop]]; cbv zeta.
    - assert (Hnc : PortState_eqb (state (self s1)) closed = false)
        by (destruct Hst as [-> | ->]; reflexivity).
      rewrite Hnc.
      assert (Hport : port (self s1) <> None).
      { unfold portIsOpen in Hopen. destruct (port (self s1)); [discriminate | discriminate]. }
      pose proof (close_with_handle_settles s1 Hport) as Hne.
      pose proof (close_calm s1 Hcalm1) as Hcalm2.
      destruct (close_silent s1) as [(_ & _ & _ & _ & Hty2) _].
      destruct (close s1) as [o s2] eqn:Hcl. cbn [fst snd] in *.
      destruct (close_settled _ _ _ Hcl Hne) as [Hst2 Hp2].
      assert (Hop2 : portIsOpen (self s2) = false)
        by (unfold portIsOpen; rewrite Hp2; reflexivity).
      split; [exact Hne |]. split; [split; [exact Hcalm2 | right; split; assumption] |].
      split; [congruence |]. split; assumption.
    - rewrite Hcl. cbn [PortState_eqb fst snd].
      split; [discriminate |]. split; [split; [exact Hcalm1 | right; split; assumption] |].
      split; [exact Hty1 |]. split; assumption. }
  destruct (init t) as [| m ms].
  - unfold sendPlain. cbn [fst].
    destruct Hp as [Hcalm Hrec].
    destruct (Hclose s Hcalm Htype Hrec) as (H1 & H2 & H3 & H4).
    repeat split; try assumption; apply H2 || apply H4.
  - destruct (sendPlain_parked m ms s Hp) as (Hne & Hp1 & Hres);
      [rewrite Htype; discriminate |].
    assert (Hty1 : type (self (snd (sendPlain (Some (m :: ms)) s))) = Some t).
    { unfold sendPlain. destruct (executeMacros_config (m :: ms) [] s) as (_ & _ & _ & _ & H).
      rewrite H. exact Htype. }
    destruct (sendPlain (Some (m :: ms)) s) as [[rs | e |] s1]; cbn [fst snd] in *.
    + destruct (Hres rs eq_refl) as [Hst Hopen].
      split; [discriminate |]. split; [exact Hp1 |]. split; [exact Hty1 |].
      repeat split; assumption.
    + destruct Hp1 as [Hcalm1 Hrec1].
      destruct (Hclose s1 Hcalm1 Hty1 Hrec1) as (H1 & H2 & H3 & H4).
      repeat split; try assumption; apply H2 || apply H4.
    + contradiction.
Qed.

Lemma helloPort_outcome_witness :
  state (self (snd (helloPort (mkSystem (setTypeField (Some mockType) connectedPort)
                                 quietWorld)))) = closed.
Proof.
  destruct (helloPort_outcome (mkSystem (setTypeField (Some mockType) connectedPort)
                                 quietWorld)) as (_ & _ & _ & H).
  - split; [reflexivity | left; split; [reflexivity | left; reflexivity]].
  - discriminate.
  - vm_compute in H |- *. exact (proj1 H).
Defined.
